(** * Fortify-AI: failure simulation, security rules, aggregation, remediation

    A shallow embedding of the analysis core of the repository
    (architecture_model.py, simulation.py, security_analysis.py,
    orchestrator.py, remediation_agent.py, llm_client.py) together with the
    properties its specification states about it.

    Modelling conventions.
    - A Python [str] is a [string] (a sequence of bytes, UTF-8); [sorted] on
      strings is the lexicographic order on bytes, which for UTF-8 is the
      order on code points.
    - A Python [dict] keeps insertion order, and the rules iterate over it, so
      it is an association list ([Dict.t]); [d[k] = v] overwrites in place or
      appends at the end, [d[k]] raises [KeyError] on a missing key.
    - A Python [set] of strings is a [gset string].
    - A Python [float] is a rational number ([Q]): the arithmetic is exact.
      Every score of [compute_severity] is a multiple of 0.5 below 2^53, on
      which binary floating point is exact as well.
      [round(x, 2)] rounds the exact value, ties to even.
    - The fields of the dataclasses have their declared types; the fields of
      a [RemediationSuggestion] hold any value, since the collaborator's
      objects are copied into them unchecked.
    - An exception is a value of [exn]; a call that can raise returns an
      [outcome]. The [while] loop of [simulate_failure] runs on fuel: [None]
      stands for a loop that is still running when the fuel is spent, and
      [enough_fuel] bounds the iterations the loop needs.
    - What lies outside the repository (the Gemini library, the process
      environment, [json.loads]) is a parameter, the record
      [llm_client.Gemini]. *)

From Stdlib Require Import QArith Qround Qminmax Lqa.
From stdpp Require Import base option list gmap strings pretty sorting relations.

Set Warnings "-register-all,-clear-no-such-hyp".

(** ** Exceptions *)

Inductive exn : Type :=
  | ValueError (msg : string)
  | KeyError (key : string)
  | RuntimeError (msg : string)
  | AttributeError (msg : string).

Inductive outcome (A : Type) : Type :=
  | Returns (a : A)
  | Raises (e : exn).
Arguments Returns {A} a.
Arguments Raises {A} e.

Global Instance outcome_ret : MRet outcome := λ A a, Returns a.
Global Instance outcome_bind : MBind outcome := λ A B k m,
  match m with
  | Returns a => k a
  | Raises e => Raises e
  end.

(** A [for] loop whose body can raise: the first exception ends the loop. *)
Fixpoint for_each {A S} (body : A → S → outcome S) (l : list A) (s : S)
  : outcome S :=
  match l with
  | [] => Returns s
  | x :: l' => s' ← body x s ; for_each body l' s'
  end.

(** ** Insertion-ordered dictionaries with string keys *)

Module Dict.
Definition t (V : Type) : Type := list (string * V).

Definition keys {V} (d : t V) : list string := d.*1.
Definition values {V} (d : t V) : list V := d.*2.
Definition items {V} (d : t V) : list (string * V) := d.

(** [d.get(k)] *)
Fixpoint get {V} (d : t V) (k : string) : option V :=
  match d with
  | [] => None
  | (k', v) :: d' => if decide (k' = k) then Some v else get d' k
  end.

(** [k in d] *)
Definition contains {V} (d : t V) (k : string) : bool :=
  bool_decide (is_Some (get d k)).

(** [d[k]] *)
Definition getitem {V} (d : t V) (k : string) : outcome V :=
  match get d k with
  | Some v => Returns v
  | None => Raises (KeyError k)
  end.

(** [d[k] = v] *)
Fixpoint set {V} (d : t V) (k : string) (v : V) : t V :=
  match d with
  | [] => [(k, v)]
  | (k', v') :: d' =>
      if decide (k' = k) then (k', v) :: d' else (k', v') :: set d' k v
  end.

(** [d.setdefault(k, v)], for its effect on [d] *)
Definition setdefault {V} (d : t V) (k : string) (v : V) : t V :=
  if contains d k then d else set d k v.

(** [d[k].append(x)] *)
Definition append_at {V} (d : t (list V)) (k : string) (x : V)
  : outcome (t (list V)) :=
  l ← getitem d k ; Returns (set d k (l ++ [x])).
End Dict.

(** ** architecture_model.py *)

Module architecture_model.

Record Component : Type := mkComponent {
  name : string;
  ctype : string;
  public : bool;
  depends_on : list string;
  criticality : string
}.

Record Architecture : Type := mkArchitecture {
  system_name : string;
  components : Dict.t Component
}.

Definition graph : Type := Dict.t (list string).

(** The body of the inner loop, [for dep in comp.depends_on]. *)
Definition add_dependency (name : string) (dep : string)
    (gs : graph * graph) : outcome (graph * graph) :=
  let '(forward_graph, reverse_graph) := gs in
  forward_graph ← Dict.append_at forward_graph name dep ;
  let reverse_graph :=
    if negb (Dict.contains reverse_graph dep)
    then Dict.set reverse_graph dep []
    else reverse_graph in
  reverse_graph ← Dict.append_at reverse_graph dep name ;
  Returns (forward_graph, reverse_graph).

(** The body of the outer loop, [for name, comp in components.items()]. *)
Definition add_component (item : string * Component)
    (gs : graph * graph) : outcome (graph * graph) :=
  let '(name, comp) := item in
  let '(forward_graph, reverse_graph) := gs in
  let forward_graph := Dict.set forward_graph name [] in
  for_each (add_dependency name) (depends_on comp)
           (forward_graph, reverse_graph).

(** The body of the last loop, the two [setdefault] calls. *)
Definition ensure_node (name : string) (gs : graph * graph)
  : graph * graph :=
  let '(forward_graph, reverse_graph) := gs in
  (Dict.setdefault forward_graph name [],
   Dict.setdefault reverse_graph name []).

Definition build_dependency_graphs (arch : Architecture)
  : outcome (graph * graph) :=
  let components := components arch in
  let forward_graph : graph := [] in
  let reverse_graph : graph :=
    (λ name, (name, [])) <$> Dict.keys components in
  gs ← for_each add_component (Dict.items components)
                 (forward_graph, reverse_graph) ;
  Returns (foldl (λ gs name, ensure_node name gs) gs (Dict.keys components)).

End architecture_model.

(** ** Floats and strings of the Python runtime *)

(** [round(x)] to the nearest integer, ties to the even one. *)
Definition round_half_even (x : Q) : Z :=
  let f := Qfloor x in
  match (x - inject_Z f ?= (1 # 2))%Q with
  | Lt => f
  | Gt => (f + 1)%Z
  | Eq => if Z.even f then f else (f + 1)%Z
  end.

(** [round(x, 2)] *)
Definition round2 (x : Q) : Q :=
  Qred (inject_Z (round_half_even (x * 100)) / 100)%Q.

(** [sum(l)] and [max(l)] on a list of floats ([max] of a non-empty list). *)
Definition Qsum (l : list Q) : Q := foldl Qplus 0%Q l.
Definition Qmaximum (x : Q) (l : list Q) : Q :=
  foldl (λ m y, if Qlt_le_dec m y then y else m) x l.

(** [c.lower()] on one byte: only the ASCII capitals change. Of the
    characters outside ASCII, none lowers to a string of ASCII letters
    occurring in the words "high" and "medium", the only strings the result
    is compared with. *)
Definition lower_ascii (c : Ascii.ascii) : Ascii.ascii :=
  let n := Ascii.nat_of_ascii c in
  if bool_decide (65 ≤ n ≤ 90)%nat then Ascii.ascii_of_nat (n + 32) else c.

(** [s.lower()] *)
Fixpoint lower (s : string) : string :=
  match s with
  | EmptyString => EmptyString
  | String c s' => String (lower_ascii c) (lower s')
  end.

(** [sorted(l)]; [String.le] is the lexicographic order on bytes. *)
Definition sorted (l : list string) : list string := merge_sort String.le l.

(** ** simulation.py *)

Module simulation.
Import architecture_model.

Record FailureResult : Type := mkFailureResult {
  failed_component : string;
  impacted_components : list string;
  user_visible_impact : bool;
  severity_score : Q;
  notes : string
}.

Definition _get_public_entrypoints (arch : Architecture) : list string :=
  (filter (λ item, public item.2 = true) (Dict.items (components arch))).*1.

Definition critical_types : gset string :=
  {[ "database"; "gateway"; "external_api"; "queue" ]}.

(** The state of the traversal: the set [impacted] and the list [stack],
    kept top first ([stack.pop()] takes the head, [stack.append] conses). *)
Definition traversal : Type := gset string * list string.

(** One iteration of [while stack]; [None] when the stack is empty and the
    loop is left. *)
Definition visit (reverse_graph : graph) (st : traversal)
  : option traversal :=
  let '(impacted, stack) := st in
  match stack with
  | [] => None
  | current :: stack =>
      if decide (current ∈ impacted) then Some (impacted, stack)
      else
        let impacted := impacted ∪ {[ current ]} in
        Some (impacted,
              foldl (λ stack dependent,
                       if decide (dependent ∉ impacted)
                       then dependent :: stack else stack)
                    stack (default [] (Dict.get reverse_graph current)))
  end.

(** The loop: [Some impacted] when it is left within [fuel] iterations. *)
Fixpoint traverse (fuel : nat) (reverse_graph : graph) (st : traversal)
  : option (gset string) :=
  match visit reverse_graph st with
  | None => Some st.1
  | Some st' =>
      match fuel with
      | O => None
      | S fuel => traverse fuel reverse_graph st'
      end
  end.

(** The body of [for name in impacted_components] of [compute_severity]. *)
Definition add_component_weight (components : Dict.t Component)
    (name : string) (score : Q) : outcome Q :=
  comp ← Dict.getitem components name ;
  let score :=
    if decide (ctype comp ∈ critical_types) then (score + (1 # 2))%Q
    else score in
  let crit := lower (criticality comp) in
  Returns (if decide (crit = "high") then (score + 1)%Q
           else if decide (crit = "medium") then (score + (1 # 2))%Q
           else score).

Definition compute_severity (arch : Architecture)
    (impacted_components : list string) (user_visible_impact : bool)
  : outcome Q :=
  let components := components arch in
  let score := 0%Q in
  let score :=
    (score + Qmin (inject_Z (Z.of_nat (length impacted_components)) * 1) 5)%Q
  in
  let score := if user_visible_impact then (score + 3)%Q else score in
  score ← for_each (add_component_weight components)
                    impacted_components score ;
  let score := if Qlt_le_dec 10 score then 10%Q else score in
  let score := if Qlt_le_dec score 0 then 0%Q else score in
  Returns (round2 score).

(** [None]: the traversal is still running after [fuel] iterations. *)
Definition simulate_failure (fuel : nat) (arch : Architecture)
    (failed_component : string) : option (outcome FailureResult) :=
  if negb (Dict.contains (components arch) failed_component)
  then Some (Raises (ValueError
         ("Component '" +:+ failed_component
          +:+ "' not found in architecture.")))
  else
    match build_dependency_graphs arch with
    | Raises e => Some (Raises e)
    | Returns (forward_graph, reverse_graph) =>
        impacted ← traverse fuel reverse_graph (∅, [failed_component]) ;
        let impacted_list := elements impacted in
        let public_entrypoints := _get_public_entrypoints arch in
        let user_visible_impact :=
          bool_decide (Exists (λ name, name ∈ impacted) public_entrypoints)
        in
        Some (
          severity_score ←
            compute_severity arch impacted_list user_visible_impact ;
          let notes :=
            if user_visible_impact
            then "User-facing components are affected."
            else "No direct impact on public entrypoints." in
          Returns {|
            failed_component := failed_component;
            impacted_components := sorted impacted_list;
            user_visible_impact := user_visible_impact;
            severity_score := severity_score;
            notes := notes |})
    end.

(** Fuel that lets the traversal of [reverse_graph] finish: every
    iteration pops one entry, and entries are pushed only when a node
    enters [impacted], one per dependent of that node. *)
Definition traversal_bound (reverse_graph : graph) : nat :=
  S (sum_list (length <$> Dict.values reverse_graph)).

Definition enough_fuel (arch : Architecture) : nat :=
  match build_dependency_graphs arch with
  | Returns (_, reverse_graph) => traversal_bound reverse_graph
  | Raises _ => 0
  end.

Definition generate_failure_scenarios (arch : Architecture) : list string :=
  let scenarios :=
    (filter (λ item, ctype item.2 ∈ critical_types)
            (Dict.items (components arch))).*1 in
  if bool_decide (scenarios = []) then Dict.keys (components arch)
  else scenarios.

End simulation.

(** ** security_analysis.py *)

Module security_analysis.
Import architecture_model.

Record SecurityRisk : Type := mkSecurityRisk {
  component : string;
  risk_type : string;
  severity : string;
  description : string;
  suggestion : string
}.

(** The state of the loop: the list [risks] and the set [seen]. *)
Definition findings : Type := list SecurityRisk * gset (string * string).

(** [if key not in seen: seen.add(key); risks.append(risk)] *)
Definition report_once (key : string * string) (risk : SecurityRisk)
    (st : findings) : findings :=
  let '(risks, seen) := st in
  if decide (key ∉ seen) then (risks ++ [risk], seen ∪ {[ key ]}) else st.

Definition dos_risk (comp : Component) : SecurityRisk := {|
  component := name comp;
  risk_type := "Denial-of-Service";
  severity := "High";
  description :=
    name comp +:+ " is a public-facing " +:+ ctype comp +:+ ". "
    +:+ "It may be vulnerable to traffic floods (DoS/DDoS) if not protected.";
  suggestion :=
    "Implement rate limiting, request throttling, and possibly a Web Application Firewall (WAF). "
    +:+ "Monitor traffic patterns and add alerting for abnormal spikes." |}.

Definition data_exposure_risk (comp : Component) : SecurityRisk := {|
  component := name comp;
  risk_type := "Data Exposure";
  severity := "High";
  description :=
    name comp +:+ " is a database flagged as public. "
    +:+ "Databases should never be directly exposed to the internet.";
  suggestion :=
    "Place the database in a private subnet and restrict access via application services only." |}.

Definition external_api_risk (comp : Component) : SecurityRisk := {|
  component := name comp;
  risk_type := "External Dependency Risk";
  severity := "Medium";
  description :=
    name comp
    +:+ " depends on an external API which may fail, be rate limited, or compromised.";
  suggestion :=
    "Implement timeouts, retries with backoff, and fallback strategies. "
    +:+ "Cache responses where possible and handle failures gracefully." |}.

Definition public_facing_types : gset string :=
  {[ "gateway"; "service"; "web_client" ]}.

(** The body of [for comp in arch.components.values()]. *)
Definition analyze_component (st : findings) (comp : Component) : findings :=
  let st :=
    if public comp && bool_decide (ctype comp ∈ public_facing_types)
    then report_once (name comp, "DoS") (dos_risk comp) st
    else st in
  let st :=
    if public comp && bool_decide (ctype comp = "database")
    then report_once (name comp, "Data Exposure") (data_exposure_risk comp) st
    else st in
  if bool_decide (ctype comp = "external_api")
  then report_once (name comp, "External API") (external_api_risk comp) st
  else st.

Definition analyze_security (arch : Architecture) : list SecurityRisk :=
  (foldl analyze_component ([], ∅) (Dict.values (components arch))).1.

End security_analysis.

(** ** agent_context.py *)

(** A value of type [Any]: what an event's details, the shared state and a
    decoded JSON document hold. *)
Inductive pyval : Type :=
  | PNone
  | PBool (b : bool)
  | PInt (n : Z)
  | PFloat (x : Q)
  | PStr (s : string)
  | PList (l : list pyval)
  | PDict (d : list (string * pyval)).

Module agent_context.

Record AgentEvent : Type := mkAgentEvent {
  agent_name : string;
  step : string;
  details : Dict.t pyval
}.

Record AgentContext : Type := mkAgentContext {
  run_id : string;
  shared_state : Dict.t pyval;
  events : list AgentEvent
}.

(** [context.log(agent_name, step, **details)] *)
Definition log (context : AgentContext) (agent_name step : string)
    (details : Dict.t pyval) : AgentContext :=
  {| run_id := run_id context;
     shared_state := shared_state context;
     events := events context ++ [mkAgentEvent agent_name step details] |}.

(** [context.shared_state[key] = value] *)
Definition set_shared (context : AgentContext) (key : string)
    (value : pyval) : AgentContext :=
  {| run_id := run_id context;
     shared_state := Dict.set (shared_state context) key value;
     events := events context |}.

(** [if context: context.log(...)] on an [Optional[AgentContext]]. *)
Definition log_if (context : option AgentContext) (agent_name step : string)
    (details : Dict.t pyval) : option AgentContext :=
  (λ c, log c agent_name step details) <$> context.

End agent_context.

(** ** orchestrator.py *)

Module orchestrator.
Import architecture_model agent_context.

Record ScenarioSummary : Type := mkScenarioSummary {
  scenario_name : string;
  failed_component : string;
  severity : Q;
  user_visible_impact : bool;
  impacted_components : list string
}.

Record SystemReport : Type := mkSystemReport {
  system_name : string;
  scenarios : list ScenarioSummary;
  security_risks : list security_analysis.SecurityRisk;
  overall_resilience_score : Q;
  worst_case_severity : Q
}.

Definition len {A} (l : list A) : pyval := PInt (Z.of_nat (length l)).

(** The body of [for failed_component in scenario_ids]. *)
Definition summarize (fuel : nat) (arch : Architecture)
    (failed_component : string) (scenario_summaries : list ScenarioSummary)
  : option (outcome (list ScenarioSummary)) :=
  r ← simulation.simulate_failure fuel arch failed_component ;
  Some (result ← r ;
        Returns (scenario_summaries ++ [ {|
          scenario_name := failed_component +:+ " FAILURE";
          failed_component := failed_component;
          severity := simulation.severity_score result;
          user_visible_impact := simulation.user_visible_impact result;
          impacted_components :=
            sorted (simulation.impacted_components result) |} ])).

(** The loop of [FailureSimulationAgent.run]; [None] when a simulation runs
    out of fuel. *)
Fixpoint summarize_all (fuel : nat) (arch : Architecture)
    (scenario_ids : list string) (scenario_summaries : list ScenarioSummary)
  : option (outcome (list ScenarioSummary)) :=
  match scenario_ids with
  | [] => Some (Returns scenario_summaries)
  | failed_component :: scenario_ids =>
      r ← summarize fuel arch failed_component scenario_summaries ;
      match r with
      | Returns scenario_summaries =>
          summarize_all fuel arch scenario_ids scenario_summaries
      | Raises e => Some (Raises e)
      end
  end.

Definition FailureSimulationAgent_run (self_name : string) (fuel : nat)
    (arch : Architecture) (context : option AgentContext)
  : option (outcome (list ScenarioSummary * option AgentContext)) :=
  let context :=
    log_if context self_name "start"
           [("system_name", PStr (architecture_model.system_name arch))] in
  let scenario_ids := simulation.generate_failure_scenarios arch in
  r ← summarize_all fuel arch scenario_ids [] ;
  Some (scenario_summaries ← r ;
        let context :=
          log_if context self_name "done"
                 [("scenarios", len scenario_summaries);
                  ("failed_components", PList (PStr <$> scenario_ids))] in
        Returns (scenario_summaries, context)).

Definition SecurityAnalysisAgent_run (self_name : string)
    (arch : Architecture) (context : option AgentContext)
  : list security_analysis.SecurityRisk * option AgentContext :=
  let context :=
    log_if context self_name "start"
           [("system_name", PStr (architecture_model.system_name arch))] in
  let risks := security_analysis.analyze_security arch in
  let context := log_if context self_name "done" [("risk_count", len risks)] in
  (risks, context).

(** [max(0.0, x)] *)
Definition max_zero (x : Q) : Q := if Qlt_le_dec 0 x then x else 0%Q.

Definition ReportingAgent_run (self_name : string) (arch : Architecture)
    (scenarios : list ScenarioSummary)
    (security_risks : list security_analysis.SecurityRisk)
    (context : option AgentContext) : SystemReport * option AgentContext :=
  let context :=
    log_if context self_name "start"
           [("scenarios", len scenarios); ("risks", len security_risks)] in
  let '(avg_severity, worst_severity) :=
    match severity <$> scenarios with
    | [] => (0%Q, 0%Q)
    | s :: rest =>
        let severities := s :: rest in
        ((Qsum severities / inject_Z (Z.of_nat (length severities)))%Q,
         Qmaximum s rest)
    end in
  let resilience_score := max_zero (10 - avg_severity)%Q in
  let report := {|
    system_name := architecture_model.system_name arch;
    scenarios := scenarios;
    security_risks := security_risks;
    overall_resilience_score := round2 resilience_score;
    worst_case_severity := round2 worst_severity |} in
  let context :=
    (λ c,
      let c := set_shared c "overall_resilience_score"
                          (PFloat (overall_resilience_score report)) in
      let c := set_shared c "worst_case_severity"
                          (PFloat (worst_case_severity report)) in
      log c self_name "done" []) <$> context in
  (report, context).

(** [OrchestratorAgent.run] with the three default agents. *)
Definition OrchestratorAgent_run (self_name : string) (fuel : nat)
    (arch : Architecture) (context : option AgentContext)
  : option (outcome (SystemReport * option AgentContext)) :=
  let context :=
    log_if context self_name "start"
           [("system_name", PStr (architecture_model.system_name arch))] in
  r ← FailureSimulationAgent_run "failure_simulation_agent" fuel arch context ;
  Some ('(scenarios, context) ← r ;
        let '(security_risks, context) :=
          SecurityAnalysisAgent_run "security_analysis_agent" arch context in
        let '(report, context) :=
          ReportingAgent_run "reporting_agent" arch scenarios security_risks
                             context in
        Returns (report, log_if context self_name "done" [])).

Definition generate_system_report (fuel : nat) (arch : Architecture)
    (context : option AgentContext)
  : option (outcome (SystemReport * option AgentContext)) :=
  OrchestratorAgent_run "orchestrator_agent" fuel arch context.

End orchestrator.

(** ** llm_client.py *)

Module llm_client.

(** What lies outside the repository and answers one use of [LLMClient]:
    the process environment, the Gemini library and the JSON decoder. *)
Record Gemini : Type := mkGemini {
  (** [os.getenv("GEMINI_API_KEY")] *)
  api_key : option string;
  (** [os.getenv("GEMINI_MODEL_NAME")] *)
  model_name_override : option string;
  (** [genai.configure(...)] and [genai.GenerativeModel(...)] *)
  configure : outcome ();
  (** [self.model.generate_content(prompt)], then the [text] of the
      response (the empty string when absent), stripped *)
  generate_content : outcome string;
  (** [json.loads] *)
  json_loads : string → outcome pyval
}.

Record LLMClient : Type := mkLLMClient {
  world : Gemini;
  model_name : string
}.

(** [LLMClient()] *)
Definition __init__ (w : Gemini) : outcome LLMClient :=
  match api_key w with
  | None | Some EmptyString =>
      Raises (RuntimeError
        "GEMINI_API_KEY not found. Please add it to your .env file.")
  | Some _ =>
      _ ← configure w ;
      Returns {| world := w;
                 model_name :=
                   default "gemini-2.5-flash-lite" (model_name_override w) |}
  end.

(** [d for d in data if isinstance(d, dict)] *)
Fixpoint dicts (data : list pyval) : list (Dict.t pyval) :=
  match data with
  | [] => []
  | PDict d :: data => d :: dicts data
  | _ :: data => dicts data
  end.

(** The prompt is a text made of the report and of the suggestions found
    so far; it reaches [generate_content] only, whose answer is a field
    of [Gemini]. *)
Definition generate_remediation_suggestions (self : LLMClient)
  : outcome (list (Dict.t pyval)) :=
  text ← generate_content (world self) ;
  match json_loads (world self) text with
  | Returns (PList data) => Returns (dicts data)
  | Returns _ => Returns []
  | Raises _ => Returns []
  end.

End llm_client.

(** ** remediation_agent.py *)

Module remediation_agent.
Import architecture_model agent_context.

Record RemediationSuggestion : Type := mkRemediationSuggestion {
  category : pyval;
  target : pyval;
  priority : pyval;
  title : pyval;
  details : pyval
}.

(** Pass 1: the system-level suggestion. *)
Definition system_level (report : orchestrator.SystemReport)
  : list RemediationSuggestion :=
  if Qle_bool (orchestrator.overall_resilience_score report) 4 then
    [ {| category := PStr "resilience";
         target := PStr "system";
         priority := PStr "high";
         title := PStr "Improve overall fault tolerance";
         details := PStr
           ("The overall resilience score is low. Introduce redundancy (replicated services, "
            +:+ "database failover), implement graceful degradation paths, and validate recovery "
            +:+ "procedures for critical components.") |} ]
  else [].

(** Pass 2, the body of [for scenario in report.scenarios]. *)
Definition scenario_based (arch : Architecture)
    (scenario : orchestrator.ScenarioSummary) : list RemediationSuggestion :=
  if Qlt_le_dec (orchestrator.severity scenario) 8 then []
  else
    let comp_name := orchestrator.failed_component scenario in
    match Dict.get (components arch) comp_name with
    | None => []
    | Some comp =>
        if decide (ctype comp = "database") then
          [ {| category := PStr "resilience";
               target := PStr comp_name;
               priority := PStr "high";
               title := PStr ("Add replication and backup for " +:+ comp_name);
               details := PStr
                 ("When " +:+ comp_name +:+ " fails, it impacts "
                  +:+ pretty (length (orchestrator.impacted_components scenario))
                  +:+ " components "
                  +:+ "and is user-visible. Configure primary/replica setups, automated failover, and "
                  +:+ "regular backup/restore drills.") |} ]
        else if decide (ctype comp = "gateway") then
          [ {| category := PStr "resilience";
               target := PStr comp_name;
               priority := PStr "high";
               title := PStr
                 ("Eliminate single point of failure at " +:+ comp_name);
               details := PStr
                 (comp_name
                  +:+ " is a critical gateway whose failure disrupts user access. "
                  +:+ "Add multiple gateway instances behind a load balancer and implement health checks.") |} ]
        else if decide (ctype comp = "external_api") then
          [ {| category := PStr "resilience";
               target := PStr comp_name;
               priority := PStr "high";
               title := PStr
                 ("Introduce circuit breakers and fallbacks for " +:+ comp_name);
               details := PStr
                 (comp_name
                  +:+ " is an external dependency whose failure causes a high-severity impact. "
                  +:+ "Use circuit breakers, timeouts, retries with backoff, and possibly alternative providers.") |} ]
        else
          [ {| category := PStr "resilience";
               target := PStr comp_name;
               priority := PStr "medium";
               title := PStr ("Harden " +:+ comp_name +:+ " against failures");
               details := PStr
                 (comp_name
                  +:+ " shows a high-severity failure scenario. Consider adding redundancy, "
                  +:+ "better monitoring, and fallback logic specific to this component.") |} ]
    end.

(** Pass 3, the body of [for risk in report.security_risks]. *)
Definition risk_driven (risk : security_analysis.SecurityRisk)
  : RemediationSuggestion :=
  let priority :=
    if decide (lower (security_analysis.severity risk) = "high")
    then "high" else "medium" in
  {| category := PStr "security";
     target := PStr (security_analysis.component risk);
     priority := PStr priority;
     title := PStr ("Mitigate " +:+ security_analysis.risk_type risk
                    +:+ " on " +:+ security_analysis.component risk);
     details := PStr (security_analysis.suggestion risk) |}.

(** The list [suggestions] when pass 4 is reached. *)
Definition rule_based (arch : Architecture)
    (report : orchestrator.SystemReport) : list RemediationSuggestion :=
  system_level report
  ++ (orchestrator.scenarios report ≫= scenario_based arch)
  ++ (risk_driven <$> orchestrator.security_risks report).

(** [s.get(key, default)] *)
Definition get_or (s : Dict.t pyval) (key : string) (default_ : pyval)
  : pyval :=
  default default_ (Dict.get s key).

(** The body of [for s in extra]. *)
Definition from_extra (s : Dict.t pyval) : RemediationSuggestion :=
  {| category := get_or s "category" (PStr "resilience");
     target := get_or s "target" (PStr "system");
     priority := get_or s "priority" (PStr "medium");
     title := get_or s "title" (PStr "AI-suggested remediation");
     details := get_or s "details" (PStr EmptyString) |}.

(** [str(e)] *)
Definition str_of_exn (e : exn) : string :=
  match e with
  | ValueError msg | RuntimeError msg | AttributeError msg => msg
  | KeyError key => "'" +:+ key +:+ "'"
  end.

(** The [try] block of pass 4. *)
Definition llm_enhance (self_name : string) (w : llm_client.Gemini)
    (suggestions : list RemediationSuggestion)
    (context : option AgentContext)
  : outcome (list RemediationSuggestion * option AgentContext) :=
  client ← llm_client.__init__ w ;
  extra ← llm_client.generate_remediation_suggestions client ;
  let suggestions := suggestions ++ (from_extra <$> extra) in
  let context :=
    log_if context self_name "llm_enhanced"
           [("added_count", orchestrator.len extra);
            ("model", PStr (llm_client.model_name client))] in
  Returns (suggestions, context).

(** Pass 4, [if LLMClient is not None: try: ... except Exception as e: ...];
    [llm] is [None] when the import of [llm_client] failed and [LLMClient]
    is [None]. *)
Definition augment (self_name : string) (llm : option llm_client.Gemini)
    (suggestions : list RemediationSuggestion)
    (context : option AgentContext)
  : outcome (list RemediationSuggestion * option AgentContext) :=
  match llm with
  | None => Returns (suggestions, context)
  | Some w =>
      match llm_enhance self_name w suggestions context with
      | Returns r => Returns r
      | Raises e =>
          Returns (suggestions,
                   log_if context self_name "llm_failed"
                          [("error", PStr (str_of_exn e))])
      end
  end.

(** Pass 5, the bookkeeping before [return suggestions]. *)
Definition bookkeeping (self_name : string)
    (suggestions : list RemediationSuggestion) (c : AgentContext)
  : AgentContext :=
  let c := set_shared c "remediation_suggestion_count"
                      (orchestrator.len suggestions) in
  log c self_name "done" [("suggestions", orchestrator.len suggestions)].

(** [RemediationAgent.run] *)
Definition RemediationAgent_run (self_name : string)
    (llm : option llm_client.Gemini) (arch : Architecture)
    (report : orchestrator.SystemReport) (context : option AgentContext)
  : outcome (list RemediationSuggestion * option AgentContext) :=
  let context :=
    log_if context self_name "start"
      [("system_name", PStr (architecture_model.system_name arch));
       ("overall_resilience",
        PFloat (orchestrator.overall_resilience_score report))] in
  let suggestions := rule_based arch report in
  match augment self_name llm suggestions context with
  | Returns (suggestions, context) =>
      Returns (suggestions, bookkeeping self_name suggestions <$> context)
  | Raises e => Raises e
  end.

End remediation_agent.

(** ** The worked architecture of the specification *)

Definition worked_G : architecture_model.Component :=
  architecture_model.mkComponent "G" "gateway" true ["S"] "medium".
Definition worked_S : architecture_model.Component :=
  architecture_model.mkComponent "S" "service" false ["D"] "medium".
Definition worked_D : architecture_model.Component :=
  architecture_model.mkComponent "D" "database" false [] "high".
Definition worked_architecture : architecture_model.Architecture :=
  architecture_model.mkArchitecture "worked"
    [("G", worked_G); ("S", worked_S); ("D", worked_D)].

(** * Properties *)

(** ** Dictionaries *)

Section dict_facts.
Context {V : Type}.
Implicit Types (d : Dict.t V) (k : string) (v : V).

Lemma dict_get_set d k v k' :
  Dict.get (Dict.set d k v) k' = if decide (k = k') then Some v else Dict.get d k'.
Proof.
  induction d as [|[k0 v0] d IH]; simpl.
  - reflexivity.
  - destruct (decide (k0 = k)) as [->|Hne]; simpl.
    + destruct (decide (k = k')); reflexivity.
    + rewrite IH. destruct (decide (k0 = k')) as [->|]; [|reflexivity].
      destruct (decide (k = k')); [congruence|reflexivity].
Qed.


Lemma dict_in_keys d k : k ∈ Dict.keys d ↔ is_Some (Dict.get d k).
Proof.
  unfold Dict.keys. induction d as [|[k0 v0] d IH]; simpl.
  - split; [intros H; inversion H | intros [? ?]; discriminate].
  - rewrite elem_of_cons, IH. destruct (decide (k0 = k)) as [->|Hne].
    + split; eauto.
    + split; [intros [?|?]; congruence || done | auto].
Qed.

Lemma dict_contains d k : Dict.contains d k = true ↔ k ∈ Dict.keys d.
Proof. unfold Dict.contains. rewrite bool_decide_eq_true, dict_in_keys. done. Qed.

Lemma dict_contains_false d k : Dict.contains d k = false ↔ k ∉ Dict.keys d.
Proof. rewrite <- dict_contains. destruct (Dict.contains d k); naive_solver. Qed.

Lemma dict_keys_set d k v k' :
  k' ∈ Dict.keys (Dict.set d k v) ↔ k' = k ∨ k' ∈ Dict.keys d.
Proof.
  rewrite !dict_in_keys, dict_get_set.
  destruct (decide (k = k')) as [->|]; [split; eauto|].
  split; [auto|intros [?|?]; congruence || done].
Qed.

Lemma dict_keys_setdefault d k v k' :
  k' ∈ Dict.keys (Dict.setdefault d k v) ↔ k' = k ∨ k' ∈ Dict.keys d.
Proof.
  unfold Dict.setdefault. destruct (Dict.contains d k) eqn:Hc.
  - apply dict_contains in Hc. naive_solver.
  - apply dict_keys_set.
Qed.


Lemma dict_getitem_Returns d k :
  k ∈ Dict.keys d → ∃ v, Dict.getitem d k = Returns v ∧ Dict.get d k = Some v.
Proof.
  rewrite dict_in_keys. intros [v Hv]. exists v. unfold Dict.getitem.
  by rewrite Hv.
Qed.
End dict_facts.

Lemma dict_append_at_Returns {V} (d : Dict.t (list V)) k x :
  k ∈ Dict.keys d →
  ∃ l, Dict.get d k = Some l ∧
       Dict.append_at d k x = Returns (Dict.set d k (l ++ [x])).
Proof.
  intros Hk. destruct (dict_getitem_Returns d k Hk) as (l & Hg & Hl).
  exists l. split; [done|]. unfold Dict.append_at. by rewrite Hg.
Qed.

(** ** The dependency graphs *)

Import architecture_model.

(** [graph.get(x, [])] *)
Definition neighbours (g : graph) (x : string) : list string :=
  default [] (Dict.get g x).


Lemma add_dependency_Returns name dep fg rg :
  name ∈ Dict.keys fg →
  ∃ fg' rg',
    add_dependency name dep (fg, rg) = Returns (fg', rg') ∧
    (∀ k, k ∈ Dict.keys fg' ↔ k ∈ Dict.keys fg) ∧
    (∀ k, k ∈ Dict.keys rg' ↔ k = dep ∨ k ∈ Dict.keys rg) ∧
    (∀ x y, y ∈ neighbours rg' x ↔
            y ∈ neighbours rg x ∨ (y = name ∧ x = dep)).
Proof.
  intros Hname. unfold add_dependency.
  destruct (dict_append_at_Returns fg name dep Hname) as (l & Hl & ->).
  set (rg1 := if negb (Dict.contains rg dep) then Dict.set rg dep [] else rg).
  assert (Hrg1 : dep ∈ Dict.keys rg1 ∧
                 (∀ k, k ∈ Dict.keys rg1 ↔ k = dep ∨ k ∈ Dict.keys rg) ∧
                 (∀ x, neighbours rg1 x = neighbours rg x)).
  { subst rg1. destruct (Dict.contains rg dep) eqn:Hc; simpl.
    - apply dict_contains in Hc. naive_solver.
    - apply dict_contains_false in Hc. split_and!.
      + apply dict_keys_set. by left.
      + intros k. apply dict_keys_set.
      + intros x. unfold neighbours. rewrite dict_get_set.
        destruct (decide (dep = x)) as [<-|]; [|done].
        rewrite dict_in_keys in Hc. by destruct (Dict.get rg dep); [destruct Hc|]. }
  destruct Hrg1 as (Hdep & Hkeys & Hnb).
  destruct (dict_append_at_Returns rg1 dep name Hdep) as (l' & Hl' & Happ).
  simpl. rewrite Happ. simpl. eexists _, _. split; [reflexivity|]. split_and!.
  - intros k. rewrite dict_keys_set. naive_solver.
  - intros k. rewrite dict_keys_set, Hkeys. naive_solver.
  - intros x y. unfold neighbours at 1. rewrite dict_get_set.
    destruct (decide (dep = x)) as [<-|Hne]; simpl.
    + rewrite elem_of_app, list_elem_of_singleton, <- Hnb.
      unfold neighbours. rewrite Hl'. naive_solver.
    + fold (neighbours rg1 x). rewrite Hnb. naive_solver.
Qed.

Lemma add_dependencies_Returns name deps fg rg :
  name ∈ Dict.keys fg →
  ∃ fg' rg',
    for_each (add_dependency name) deps (fg, rg) = Returns (fg', rg') ∧
    (∀ k, k ∈ Dict.keys fg' ↔ k ∈ Dict.keys fg) ∧
    (∀ k, k ∈ Dict.keys rg' ↔ k ∈ deps ∨ k ∈ Dict.keys rg) ∧
    (∀ x y, y ∈ neighbours rg' x ↔
            y ∈ neighbours rg x ∨ (y = name ∧ x ∈ deps)).
Proof.
  revert fg rg. induction deps as [|dep deps IH]; intros fg rg Hname;
    cbn [for_each].
  - exists fg, rg. split; [done|]. split_and!; intros; rewrite ?elem_of_nil;
      naive_solver.
  - destruct (add_dependency_Returns name dep fg rg Hname)
      as (fg1 & rg1 & -> & Hfg1 & Hrg1 & Hnb1).
    destruct (IH fg1 rg1) as (fg2 & rg2 & Heq & Hfg2 & Hrg2 & Hnb2).
    { by apply Hfg1. }
    exists fg2, rg2. split; [exact Heq|]. split_and!.
    + intros k. rewrite Hfg2. apply Hfg1.
    + intros k. rewrite Hrg2, Hrg1, elem_of_cons. naive_solver.
    + intros x y. rewrite Hnb2, Hnb1, elem_of_cons. naive_solver.
Qed.

Lemma add_components_Returns (items : list (string * Component)) fg rg :
  ∃ fg' rg',
    for_each add_component items (fg, rg) = Returns (fg', rg') ∧
    (∀ k, k ∈ Dict.keys fg' ↔ k ∈ items.*1 ∨ k ∈ Dict.keys fg) ∧
    (∀ k, k ∈ Dict.keys rg' ↔
          (∃ item, item ∈ items ∧ k ∈ depends_on item.2) ∨ k ∈ Dict.keys rg) ∧
    (∀ x y, y ∈ neighbours rg' x ↔
            y ∈ neighbours rg x ∨
            (∃ comp, (y, comp) ∈ items ∧ x ∈ depends_on comp)).
Proof.
  revert fg rg. induction items as [|[name comp] items IH]; intros fg rg;
    cbn [for_each].
  - exists fg, rg. split; [done|]. split_and!; intros;
      setoid_rewrite elem_of_nil; naive_solver.
  - destruct (add_dependencies_Returns name (depends_on comp)
                (Dict.set fg name []) rg)
      as (fg1 & rg1 & Hstep & Hfg1 & Hrg1 & Hnb1).
    { apply dict_keys_set. by left. }
    change (add_component (name, comp) (fg, rg))
      with (for_each (add_dependency name) (depends_on comp)
                     (Dict.set fg name [], rg)).
    rewrite Hstep.
    destruct (IH fg1 rg1) as (fg2 & rg2 & Heq & Hfg2 & Hrg2 & Hnb2).
    exists fg2, rg2. split; [exact Heq|]. split_and!.
    + intros k. rewrite Hfg2, Hfg1, dict_keys_set, fmap_cons, elem_of_cons.
      simpl. naive_solver.
    + intros k. rewrite Hrg2, Hrg1. setoid_rewrite elem_of_cons.
      split; [intros [(item & ? & ?)|[?|?]]|intros [(item & [->|?] & ?)|?]];
        eauto 6.
    + intros x y. rewrite Hnb2, Hnb1. setoid_rewrite elem_of_cons.
      split.
      * intros [[?|[-> ?]]|(c & ? & ?)]; eauto 6.
      * intros [?|(c & [Heqc|?] & ?)]; eauto 6.
        injection Heqc as -> ->. eauto.
Qed.

Lemma ensure_nodes_spec names fg rg :
  let gs := foldl (λ gs name, ensure_node name gs) (fg, rg) names in
  (∀ k, k ∈ Dict.keys gs.1 ↔ k ∈ names ∨ k ∈ Dict.keys fg) ∧
  (∀ k, k ∈ Dict.keys gs.2 ↔ k ∈ names ∨ k ∈ Dict.keys rg) ∧
  (∀ x, neighbours gs.2 x = neighbours rg x).
Proof.
  revert fg rg. induction names as [|name names IH]; intros fg rg; simpl.
  - split_and!; intros; rewrite ?elem_of_nil; naive_solver.
  - destruct (IH (Dict.setdefault fg name []) (Dict.setdefault rg name []))
      as (Hfg & Hrg & Hnb).
    split_and!.
    + intros k. rewrite Hfg, dict_keys_setdefault, elem_of_cons. naive_solver.
    + intros k. rewrite Hrg, dict_keys_setdefault, elem_of_cons. naive_solver.
    + intros x. rewrite Hnb. unfold neighbours, Dict.setdefault.
      destruct (Dict.contains rg name) eqn:Hc; [done|].
      rewrite dict_get_set. destruct (decide (name = x)) as [<-|]; [|done].
      apply dict_contains_false in Hc. rewrite dict_in_keys in Hc.
      by destruct (Dict.get rg name); [destruct Hc|].
Qed.

Lemma initial_reverse_graph (names : list string) :
  let rg : graph := (λ name, (name, [])) <$> names in
  (∀ k, k ∈ Dict.keys rg ↔ k ∈ names) ∧ (∀ x, neighbours rg x = []).
Proof.
  simpl. split.
  - intros k. unfold Dict.keys. induction names as [|n names IH]; simpl; [done|].
    by rewrite !elem_of_cons, IH.
  - intros x. unfold neighbours. induction names as [|n names IH]; simpl; [done|].
    destruct (decide (n = x)); [done|exact IH].
Qed.

(** What [build_dependency_graphs] returns: it raises nothing, the forward
    graph has the components as keys, the reverse graph the components and
    every dependency target, and [y] is listed under [x] in the reverse graph
    exactly when the component stored under [y] depends on [x]. *)
Lemma build_dependency_graphs_spec (arch : Architecture) :
  ∃ fg rg,
    build_dependency_graphs arch = Returns (fg, rg) ∧
    (∀ k, k ∈ Dict.keys fg ↔ k ∈ Dict.keys (components arch)) ∧
    (∀ k, k ∈ Dict.keys rg ↔
          k ∈ Dict.keys (components arch) ∨
          ∃ item, item ∈ Dict.items (components arch) ∧ k ∈ depends_on item.2) ∧
    (∀ x y, y ∈ neighbours rg x ↔
            ∃ comp, (y, comp) ∈ Dict.items (components arch) ∧
                    x ∈ depends_on comp).
Proof.
  unfold build_dependency_graphs.
  destruct (initial_reverse_graph (Dict.keys (components arch))) as (Hk0 & Hn0).
  destruct (add_components_Returns (Dict.items (components arch)) []
              ((λ name, (name, [])) <$> Dict.keys (components arch)))
    as (fg1 & rg1 & -> & Hfg1 & Hrg1 & Hnb1).
  simpl.
  destruct (ensure_nodes_spec (Dict.keys (components arch)) fg1 rg1)
    as (Hfg2 & Hrg2 & Hnb2).
  destruct (foldl _ _ _) as [fg2 rg2]. simpl in *.
  exists fg2, rg2. split; [done|]. split_and!.
  - intros k. rewrite Hfg2, Hfg1. unfold Dict.keys, Dict.items.
    rewrite elem_of_nil. naive_solver.
  - intros k. rewrite Hrg2, Hrg1, Hk0. naive_solver.
  - intros x y. rewrite Hnb2, Hnb1, Hn0, elem_of_nil. naive_solver.
Qed.

(** ** C4 *)

(** C4. [build_dependency_graphs] raises nothing, whatever the dependency
    lists hold; the keys of the forward graph are those of
    [arch.components]; the keys of the reverse graph include them and every
    dependency target, so a target that is no component is a key of the
    reverse graph all the same (and no key of the forward graph). *)
Theorem build_dependency_graphs_keys (arch : Architecture) :
  ∃ forward_graph reverse_graph,
    build_dependency_graphs arch = Returns (forward_graph, reverse_graph) ∧
    (∀ k, k ∈ Dict.keys forward_graph ↔ k ∈ Dict.keys (components arch)) ∧
    Dict.keys (components arch) ⊆ Dict.keys reverse_graph ∧
    (∀ name comp dep,
       (name, comp) ∈ Dict.items (components arch) →
       dep ∈ depends_on comp →
       dep ∈ Dict.keys reverse_graph ∧
       (dep ∉ Dict.keys (components arch) → dep ∉ Dict.keys forward_graph)).
Proof.
  destruct (build_dependency_graphs_spec arch) as (fg & rg & Heq & Hfg & Hrg & _).
  exists fg, rg. split; [exact Heq|]. split_and!.
  - exact Hfg.
  - intros k Hk. apply Hrg. by left.
  - intros name comp dep Hin Hdep. split.
    + apply Hrg. right. exists (name, comp). done.
    + intros Hno. by rewrite Hfg.
Qed.

(** A dangling dependency: [web] depends on [ghost], which is no component. *)
Definition dangling_architecture : Architecture :=
  mkArchitecture "dangling"
    [("web", mkComponent "web" "service" true ["ghost"] "low")].

Lemma build_dependency_graphs_keys_witness :
  ∃ forward_graph reverse_graph,
    build_dependency_graphs dangling_architecture
    = Returns (forward_graph, reverse_graph) ∧
    Dict.keys forward_graph = ["web"] ∧
    "ghost" ∈ Dict.keys reverse_graph.
Proof.
  destruct (build_dependency_graphs_keys dangling_architecture)
    as (fg & rg & Heq & Hfg & Hsub & Hdep).
  exists fg, rg. split; [exact Heq|]. split.
  - vm_compute in Heq. by injection Heq as <- <-.
  - apply (Hdep "web" (mkComponent "web" "service" true ["ghost"] "low") "ghost").
    + left.
    + left.
Defined.

(** ** The traversal of the reverse graph *)

Import simulation.

Section traversal.
Variable reverse_graph : graph.

(** [y] is listed under [x]: [y] depends on [x]. *)
Definition edge (x y : string) : Prop := y ∈ neighbours reverse_graph x.

Implicit Types (impacted : gset string) (stack : list string).

Lemma push_dependents_elem impacted deps stack y :
  y ∈ foldl (λ stack dependent,
               if decide (dependent ∉ impacted)
               then dependent :: stack else stack) stack deps
  ↔ y ∈ stack ∨ (y ∈ deps ∧ y ∉ impacted).
Proof.
  revert stack. induction deps as [|d deps IH]; intros stack; simpl.
  - rewrite elem_of_nil. naive_solver.
  - rewrite IH, elem_of_cons. destruct (decide (d ∉ impacted)).
    + rewrite elem_of_cons. naive_solver.
    + naive_solver.
Qed.

Lemma push_dependents_length impacted deps stack :
  length (foldl (λ stack dependent,
                   if decide (dependent ∉ impacted)
                   then dependent :: stack else stack) stack deps)
  ≤ length stack + length deps.
Proof.
  revert stack. induction deps as [|d deps IH]; intros stack; simpl; [lia|].
  etrans; [apply IH|]. destruct (decide (d ∉ impacted)); simpl; lia.
Qed.

(** The entries that can still be pushed: the dependents listed under the
    nodes that are not impacted yet. *)
Definition pending (g : graph) impacted : nat :=
  sum_list ((λ item : string * list string,
               if decide (item.1 ∈ impacted) then 0 else length item.2)
            <$> g).

Definition remaining (st : traversal) : nat :=
  length st.2 + pending reverse_graph st.1.

Lemma pending_mono g impacted impacted' :
  impacted ⊆ impacted' → pending g impacted' ≤ pending g impacted.
Proof.
  intros Hsub. unfold pending.
  induction g as [|[k l] g IH]; csimpl; [lia|].
  destruct (decide (k ∈ impacted)), (decide (k ∈ impacted')); csimpl;
    first [lia | exfalso; set_solver].
Qed.

Lemma pending_visit g impacted current :
  current ∉ impacted →
  pending g (impacted ∪ {[ current ]}) + length (neighbours g current)
  ≤ pending g impacted.
Proof.
  intros Hnew. unfold neighbours.
  induction g as [|[k l] g IH]; unfold pending in *; csimpl; [lia|].
  destruct (decide (k = current)) as [->|Hne].
  - destruct (decide (current ∈ impacted)); [done|].
    destruct (decide (current ∈ impacted ∪ {[ current ]})); [|set_solver].
    assert (Hsub : impacted ⊆ impacted ∪ {[ current ]}) by set_solver.
    apply (pending_mono g) in Hsub. unfold pending in Hsub. csimpl. lia.
  - destruct (decide (k ∈ impacted)),
      (decide (k ∈ impacted ∪ {[ current ]})); csimpl;
      first [lia | exfalso; set_solver].
Qed.

Lemma pending_empty g :
  pending g ∅ = sum_list (length <$> Dict.values g).
Proof.
  unfold pending, Dict.values.
  induction g as [|[k l] g IH]; csimpl; [done|].
  rewrite IH. destruct (decide (k ∈ (∅ : gset string))); [set_solver|done].
Qed.

(** Every iteration of the loop lowers [remaining]. *)
Lemma visit_decreases st st' :
  visit reverse_graph st = Some st' → remaining st' < remaining st.
Proof.
  destruct st as [impacted [|current stack]]; simpl; [discriminate|].
  destruct (decide (current ∈ impacted)) as [Hin|Hnew]; intros [= <-];
    unfold remaining; simpl; [lia|].
  pose proof (push_dependents_length (impacted ∪ {[ current ]})
                (default [] (Dict.get reverse_graph current)) stack).
  pose proof (pending_visit reverse_graph impacted current Hnew).
  unfold neighbours in *. lia.
Qed.

Lemma traverse_terminates fuel st :
  remaining st ≤ fuel → is_Some (traverse fuel reverse_graph st).
Proof.
  revert st. induction fuel as [|fuel IH]; intros st Hle; simpl.
  - destruct (visit reverse_graph st) as [st'|] eqn:Hv; [|eauto].
    apply visit_decreases in Hv. lia.
  - destruct (visit reverse_graph st) as [st'|] eqn:Hv; [|eauto].
    apply visit_decreases in Hv. apply IH. lia.
Qed.

Lemma traverse_fuel_mono fuel fuel' st impacted :
  traverse fuel reverse_graph st = Some impacted → fuel ≤ fuel' →
  traverse fuel' reverse_graph st = Some impacted.
Proof.
  revert fuel' st. induction fuel as [|fuel IH]; intros fuel' st; simpl.
  - destruct (visit reverse_graph st) eqn:Hv; [discriminate|].
    intros <- _. destruct fuel'; simpl; by rewrite Hv.
  - destruct (visit reverse_graph st) as [st'|] eqn:Hv.
    + intros Ht Hle. destruct fuel' as [|fuel']; [lia|]. simpl. rewrite Hv.
      apply IH; [done|lia].
    + intros <- _. destruct fuel'; simpl; by rewrite Hv.
Qed.

(** The invariant of the loop for the failed component [root]. *)
Definition closing (root : string) (st : traversal) : Prop :=
  (∀ y, y ∈ st.1 ∨ y ∈ st.2 → rtc edge root y) ∧
  (root ∈ st.1 ∨ root ∈ st.2) ∧
  (∀ x y, x ∈ st.1 → edge x y → y ∈ st.1 ∨ y ∈ st.2).

Lemma closing_initial root : closing root (∅, [root]).
Proof.
  split_and!; simpl.
  - intros y [Hy|Hy]; [set_solver|].
    apply list_elem_of_singleton in Hy as ->. done.
  - right. left.
  - set_solver.
Qed.

Lemma visit_closing root st st' :
  closing root st → visit reverse_graph st = Some st' → closing root st'.
Proof.
  destruct st as [impacted [|current stack]]; simpl; [discriminate|].
  intros (Hreach & Hroot & Hclosed); simpl in *.
  destruct (decide (current ∈ impacted)) as [Hin|Hnew]; intros [= <-];
    split_and!; simpl.
  - intros y [Hy|Hy]; apply Hreach; [by left|right; by right].
  - destruct Hroot as [?|Hr]; [by left|].
    apply elem_of_cons in Hr as [->|?]; [by left|by right].
  - intros x y Hx Hxy. destruct (Hclosed x y Hx Hxy) as [?|Hy]; [by left|].
    apply elem_of_cons in Hy as [->|?]; [by left|by right].
  - intros y [Hy|Hy].
    + apply elem_of_union in Hy as [Hy|Hy]; [apply Hreach; by left|].
      apply elem_of_singleton in Hy as ->. apply Hreach. right. left.
    + apply push_dependents_elem in Hy as [Hy|[Hy _]].
      * apply Hreach. right. by right.
      * eapply rtc_r; [apply Hreach; right; left|exact Hy].
  - destruct Hroot as [?|Hr]; [left; set_solver|].
    apply elem_of_cons in Hr as [->|?]; [left; set_solver|].
    right. apply push_dependents_elem. by left.
  - intros x y Hx Hxy.
    destruct (decide (y ∈ impacted ∪ {[ current ]})) as [?|Hy]; [by left|].
    right. apply push_dependents_elem.
    apply elem_of_union in Hx as [Hx|Hx].
    + destruct (Hclosed x y Hx Hxy) as [?|Hs]; [set_solver|].
      apply elem_of_cons in Hs as [->|?]; [set_solver|by left].
    + apply elem_of_singleton in Hx as ->. right. done.
Qed.

Lemma closing_final root st :
  closing root st → visit reverse_graph st = None →
  ∀ y, y ∈ st.1 ↔ rtc edge root y.
Proof.
  destruct st as [impacted [|current stack]]; simpl; [|by case_decide].
  intros (Hreach & Hroot & Hclosed) _ y; simpl in *. split.
  - intros Hy. apply Hreach. by left.
  - assert (Hr : root ∈ impacted).
    { destruct Hroot as [?|Hr]; [done|]. by apply elem_of_nil in Hr. }
    intros Hy. revert Hr. clear Hreach Hroot.
    induction Hy as [|x y z Hxy _ IH]; [tauto|].
    intros Hx. apply IH. destruct (Hclosed x y Hx Hxy) as [?|Hn]; [done|].
    by apply elem_of_nil in Hn.
Qed.

(** When the loop is left, [impacted] is the set of the nodes that can be
    reached from [root]. *)
Lemma traverse_closure root fuel st impacted :
  closing root st → traverse fuel reverse_graph st = Some impacted →
  ∀ y, y ∈ impacted ↔ rtc edge root y.
Proof.
  revert st. induction fuel as [|fuel IH]; intros st Hinv; simpl;
    destruct (visit reverse_graph st) as [st'|] eqn:Hv; try discriminate.
  - intros [= <-]. by apply closing_final.
  - intros Ht. eapply IH; [|exact Ht]. by eapply visit_closing.
  - intros [= <-]. by apply closing_final.
Qed.
End traversal.

(** ** [simulate_failure] *)

(** [y] is stored in [arch.components] and lists [x] in its [depends_on]. *)
Definition depends_directly (arch : Architecture) (x y : string) : Prop :=
  ∃ comp, (y, comp) ∈ Dict.items (components arch) ∧ x ∈ depends_on comp.

Lemma dict_item_key {V} (d : Dict.t V) k v : (k, v) ∈ d → k ∈ Dict.keys d.
Proof. intros H. unfold Dict.keys. apply list_elem_of_fmap. by exists (k, v). Qed.

Lemma depends_directly_component arch x y :
  depends_directly arch x y → y ∈ Dict.keys (components arch).
Proof. intros (comp & Hc & _). by eapply dict_item_key. Qed.

Lemma reached_component arch x y :
  rtc (depends_directly arch) x y →
  x ∈ Dict.keys (components arch) → y ∈ Dict.keys (components arch).
Proof.
  induction 1 as [|x y z Hxy _ IH]; [tauto|].
  intros _. apply IH. by eapply depends_directly_component.
Qed.

Lemma add_component_weight_Returns components name score :
  name ∈ Dict.keys components →
  ∃ q, add_component_weight components name score = Returns q.
Proof.
  intros Hk. destruct (dict_getitem_Returns components name Hk) as (comp & Hg & _).
  unfold add_component_weight. rewrite Hg. simpl. eauto.
Qed.

Lemma add_component_weights_Returns components (l : list string) score :
  (∀ y, y ∈ l → y ∈ Dict.keys components) →
  ∃ q, for_each (add_component_weight components) l score = Returns q.
Proof.
  revert score. induction l as [|name l IH]; intros score Hl; cbn [for_each].
  - by exists score.
  - destruct (add_component_weight_Returns components name score) as (q & ->).
    { apply Hl. left. }
    simpl. apply IH. intros y Hy. apply Hl. by right.
Qed.

Lemma compute_severity_Returns arch (l : list string) user_visible :
  (∀ y, y ∈ l → y ∈ Dict.keys (components arch)) →
  ∃ q, compute_severity arch l user_visible = Returns q.
Proof.
  intros Hl. unfold compute_severity.
  edestruct (add_component_weights_Returns (components arch) l) as (q & ->);
    [exact Hl|].
  simpl. eauto.
Qed.

Lemma sorted_elem (l : list string) y : y ∈ sorted l ↔ y ∈ l.
Proof. unfold sorted. by rewrite merge_sort_Permutation. Qed.

Lemma sorted_StronglySorted (l : list string) :
  StronglySorted String.le (sorted l).
Proof. apply StronglySorted_merge_sort; apply _. Qed.

Lemma sorted_NoDup (l : list string) : NoDup l → NoDup (sorted l).
Proof. unfold sorted. by rewrite merge_sort_Permutation. Qed.

(** What [simulate_failure] does for a component of the architecture, on
    fuel that covers [enough_fuel]. *)
Lemma simulate_failure_Returns arch failed fuel :
  failed ∈ Dict.keys (components arch) →
  enough_fuel arch ≤ fuel →
  ∃ fg rg impacted score,
    build_dependency_graphs arch = Returns (fg, rg) ∧
    traverse fuel rg (∅, [failed]) = Some impacted ∧
    (∀ y, y ∈ impacted ↔ rtc (edge rg) failed y) ∧
    (∀ x y, edge rg x y ↔ depends_directly arch x y) ∧
    simulate_failure fuel arch failed = Some (Returns {|
      failed_component := failed;
      impacted_components := sorted (elements impacted);
      user_visible_impact :=
        bool_decide (Exists (λ name, name ∈ impacted)
                            (_get_public_entrypoints arch));
      severity_score := score;
      notes :=
        if bool_decide (Exists (λ name, name ∈ impacted)
                               (_get_public_entrypoints arch))
        then "User-facing components are affected."
        else "No direct impact on public entrypoints." |}) ∧
    compute_severity arch (elements impacted)
      (bool_decide (Exists (λ name, name ∈ impacted)
                           (_get_public_entrypoints arch)))
    = Returns score.
Proof.
  intros Hin Hfuel.
  destruct (build_dependency_graphs_spec arch) as (fg & rg & Hb & _ & _ & Hnb).
  assert (Hedge : ∀ x y, edge rg x y ↔ depends_directly arch x y).
  { intros x y. apply Hnb. }
  unfold enough_fuel in Hfuel. rewrite Hb in Hfuel.
  destruct (traverse_terminates rg fuel (∅, [failed])) as [impacted Ht].
  { unfold remaining. simpl. rewrite pending_empty.
    unfold traversal_bound in Hfuel. lia. }
  pose proof (traverse_closure rg failed fuel _ impacted
                (closing_initial rg failed) Ht) as Hcl.
  destruct (compute_severity_Returns arch (elements impacted)
              (bool_decide (Exists (λ name, name ∈ impacted)
                                   (_get_public_entrypoints arch))))
    as (score & Hscore).
  { intros y Hy. apply elem_of_elements, Hcl in Hy.
    eapply reached_component; [|exact Hin].
    eapply rtc_subrel; [|exact Hy]. intros ??. apply Hedge. }
  exists fg, rg, impacted, score. split_and!; try done.
  unfold simulate_failure.
  apply dict_contains in Hin. rewrite Hin, Hb. simpl. rewrite Ht. simpl.
  by rewrite Hscore.
Qed.

Lemma simulate_failure_fuel_mono arch failed fuel fuel' r :
  simulate_failure fuel arch failed = Some r → fuel ≤ fuel' →
  simulate_failure fuel' arch failed = Some r.
Proof.
  unfold simulate_failure. intros Hr Hle.
  destruct (negb _); [done|].
  destruct (build_dependency_graphs arch) as [[fg rg]|e]; [|done].
  destruct (traverse fuel rg (∅, [failed])) as [impacted|] eqn:Ht;
    [|discriminate].
  by rewrite (traverse_fuel_mono rg fuel fuel' _ impacted Ht Hle).
Qed.

Lemma NoDup_all_eq {A} (l : list A) (x : A) :
  NoDup l → (∀ y, y ∈ l ↔ y = x) → l = [x].
Proof.
  intros Hnd Hall. destruct l as [|a l].
  - exfalso. eapply elem_of_nil, Hall. reflexivity.
  - assert (a = x) as -> by (apply Hall; left).
    destruct l as [|b l]; [done|].
    assert (b = x) as -> by (apply Hall; right; left).
    apply NoDup_cons in Hnd as [Hnot _]. exfalso. apply Hnot. left.
Qed.

(** ** C1 *)

(** C1. In the worked architecture (gateway [G], public, depending on [S];
    service [S] of medium criticality depending on [D]; database [D] of high
    criticality), the failure of [D] impacts [D], [S] and [G] (reported in
    sorted order), is visible to users, and has severity 9.0. *)
Theorem worked_scenario (fuel : nat) :
  enough_fuel worked_architecture ≤ fuel →
  ∃ r,
    simulate_failure fuel worked_architecture "D" = Some (Returns r) ∧
    impacted_components r = ["D"; "G"; "S"] ∧
    (∀ y, y ∈ impacted_components r ↔ y ∈ ["D"; "S"; "G"]) ∧
    user_visible_impact r = true ∧
    (severity_score r == 9)%Q.
Proof.
  intros Hfuel.
  exists (mkFailureResult "D" ["D"; "G"; "S"] true 9
            "User-facing components are affected.").
  split.
  - apply (simulate_failure_fuel_mono _ _ 3); [by vm_compute|exact Hfuel].
  - simpl. split_and!; try done.
    intros y. rewrite !elem_of_cons, !elem_of_nil. tauto.
Qed.

Lemma worked_scenario_witness :
  ∃ r,
    simulate_failure 3 worked_architecture "D" = Some (Returns r) ∧
    impacted_components r = ["D"; "G"; "S"] ∧
    (∀ y, y ∈ impacted_components r ↔ y ∈ ["D"; "S"; "G"]) ∧
    user_visible_impact r = true ∧
    (severity_score r == 9)%Q.
Proof. apply (worked_scenario 3). vm_compute. lia. Defined.

(** ** C2 *)

(** C2. For a component [failed] of the architecture, [simulate_failure]
    returns; a name is among the impacted components exactly when it can be
    reached from [failed] in zero or more steps of the reverse graph (where
    [y] follows [x] when the component [y] lists [x] in its [depends_on]);
    the impacted components come sorted and without repetition; [failed] is
    one of them; and when nothing depends on [failed], even transitively,
    they are [failed] alone. *)
Theorem impacted_is_reverse_closure arch failed fuel :
  failed ∈ Dict.keys (components arch) →
  enough_fuel arch ≤ fuel →
  ∃ forward_graph reverse_graph r,
    build_dependency_graphs arch = Returns (forward_graph, reverse_graph) ∧
    simulate_failure fuel arch failed = Some (Returns r) ∧
    (∀ x y, edge reverse_graph x y ↔ depends_directly arch x y) ∧
    (∀ y, y ∈ impacted_components r ↔ rtc (edge reverse_graph) failed y) ∧
    StronglySorted String.le (impacted_components r) ∧
    NoDup (impacted_components r) ∧
    failed ∈ impacted_components r ∧
    ((∀ y, ¬ tc (edge reverse_graph) failed y) →
     impacted_components r = [failed]).
Proof.
  intros Hin Hfuel.
  destruct (simulate_failure_Returns arch failed fuel Hin Hfuel)
    as (fg & rg & impacted & score & Hb & _ & Hcl & Hedge & Hsim & _).
  eexists fg, rg, _. split; [exact Hb|]. split; [exact Hsim|]. simpl.
  assert (Hmem : ∀ y, y ∈ sorted (elements impacted) ↔ rtc (edge rg) failed y).
  { intros y. by rewrite sorted_elem, elem_of_elements. }
  assert (Hnd : NoDup (sorted (elements impacted))).
  { apply sorted_NoDup, NoDup_elements. }
  split_and!; try done.
  - apply sorted_StronglySorted.
  - by apply Hmem.
  - intros Hnone. apply NoDup_all_eq; [exact Hnd|].
    intros y. rewrite Hmem. split; [|by intros ->].
    intros Hy. apply rtc_tc in Hy as [?|Hy]; [done|]. by apply Hnone in Hy.
Qed.

Lemma impacted_is_reverse_closure_witness :
  ∃ forward_graph reverse_graph r,
    build_dependency_graphs worked_architecture
    = Returns (forward_graph, reverse_graph) ∧
    simulate_failure 3 worked_architecture "G" = Some (Returns r) ∧
    (∀ x y, edge reverse_graph x y ↔ depends_directly worked_architecture x y) ∧
    (∀ y, y ∈ impacted_components r ↔ rtc (edge reverse_graph) "G" y) ∧
    StronglySorted String.le (impacted_components r) ∧
    NoDup (impacted_components r) ∧
    "G" ∈ impacted_components r ∧
    ((∀ y, ¬ tc (edge reverse_graph) "G" y) → impacted_components r = ["G"]).
Proof.
  apply (impacted_is_reverse_closure worked_architecture "G" 3).
  - vm_compute. left.
  - vm_compute. lia.
Defined.

(** ** C9 *)

(** C9. For a component [failed] of the architecture, every impacted name is
    a key of [arch.components]: a key of the reverse graph that is no
    component (the target of a dangling dependency) is never impacted, and
    [compute_severity] raises no [KeyError] on the impacted names, in
    whatever order the set hands them over. *)
Theorem impacted_are_components arch failed fuel :
  failed ∈ Dict.keys (components arch) →
  enough_fuel arch ≤ fuel →
  ∃ forward_graph reverse_graph r,
    build_dependency_graphs arch = Returns (forward_graph, reverse_graph) ∧
    simulate_failure fuel arch failed = Some (Returns r) ∧
    (∀ y, y ∈ impacted_components r →
          ∃ comp, Dict.getitem (components arch) y = Returns comp) ∧
    (∀ k, k ∈ Dict.keys reverse_graph → k ∉ Dict.keys (components arch) →
          k ∉ impacted_components r) ∧
    (∀ l user_visible, l ≡ₚ impacted_components r →
          ∃ q, compute_severity arch l user_visible = Returns q).
Proof.
  intros Hin Hfuel.
  destruct (simulate_failure_Returns arch failed fuel Hin Hfuel)
    as (fg & rg & impacted & score & Hb & _ & Hcl & Hedge & Hsim & _).
  eexists fg, rg, _. split; [exact Hb|]. split; [exact Hsim|]. simpl.
  assert (Hcomp : ∀ y, y ∈ sorted (elements impacted) →
                       y ∈ Dict.keys (components arch)).
  { intros y Hy. apply sorted_elem, elem_of_elements, Hcl in Hy.
    eapply reached_component; [|exact Hin].
    eapply rtc_subrel; [|exact Hy]. intros ??. apply Hedge. }
  split_and!.
  - intros y Hy. destruct (dict_getitem_Returns _ _ (Hcomp y Hy)) as (c & ? & _).
    by exists c.
  - intros k _ Hno Hk. by apply Hno, Hcomp.
  - intros l uv Hl. apply compute_severity_Returns.
    intros y Hy. apply Hcomp. by rewrite <- Hl.
Qed.

Lemma impacted_are_components_witness :
  ∃ forward_graph reverse_graph r,
    build_dependency_graphs dangling_architecture
    = Returns (forward_graph, reverse_graph) ∧
    simulate_failure 2 dangling_architecture "web" = Some (Returns r) ∧
    (∀ y, y ∈ impacted_components r →
          ∃ comp, Dict.getitem (components dangling_architecture) y
                  = Returns comp) ∧
    (∀ k, k ∈ Dict.keys reverse_graph →
          k ∉ Dict.keys (components dangling_architecture) →
          k ∉ impacted_components r) ∧
    (∀ l user_visible, l ≡ₚ impacted_components r →
          ∃ q, compute_severity dangling_architecture l user_visible
               = Returns q).
Proof.
  apply (impacted_are_components dangling_architecture "web" 2).
  - vm_compute. left.
  - vm_compute. lia.
Defined.

(** ** C10 *)

(** An architecture whose dependencies form cycles: [a] depends on [b] and on
    itself, [b] depends on [a]. *)
Definition cyclic_architecture : Architecture :=
  mkArchitecture "cyclic"
    [("a", mkComponent "a" "service" false ["b"; "a"] "medium");
     ("b", mkComponent "b" "database" true ["a"] "high")].

(** C10. [simulate_failure] ends: on any fuel that covers [enough_fuel arch]
    (one more than the number of dependency entries) the loop is left and the
    result is the same for every larger fuel, whatever the shape of the
    dependencies. The reason is that a node already impacted is popped and
    nothing else happens, so that every iteration lowers the number of stack
    entries plus the number of entries that nodes not yet impacted can still
    push. *)
Theorem simulate_failure_terminates arch failed fuel :
  enough_fuel arch ≤ fuel →
  (∃ r, ∀ fuel', fuel ≤ fuel' → simulate_failure fuel' arch failed = Some r) ∧
  (∀ reverse_graph impacted current stack,
     current ∈ impacted →
     visit reverse_graph (impacted, current :: stack) = Some (impacted, stack)) ∧
  (∀ reverse_graph st st',
     visit reverse_graph st = Some st' →
     remaining reverse_graph st' < remaining reverse_graph st).
Proof.
  intros Hfuel. split_and!.
  - destruct (decide (failed ∈ Dict.keys (components arch))) as [Hin|Hout].
    + destruct (simulate_failure_Returns arch failed fuel Hin Hfuel)
        as (fg & rg & impacted & score & _ & _ & _ & _ & Hsim & _).
      eexists. intros fuel' Hle.
      by apply (simulate_failure_fuel_mono _ _ fuel).
    + apply dict_contains_false in Hout. eexists. intros fuel' _.
      unfold simulate_failure. rewrite Hout. reflexivity.
  - intros rg impacted current stack Hin. simpl. by rewrite decide_True.
  - intros rg st st'. apply visit_decreases.
Qed.

Lemma simulate_failure_terminates_witness :
  (∃ r, ∀ fuel', 4 ≤ fuel' →
        simulate_failure fuel' cyclic_architecture "a" = Some r) ∧
  (∀ reverse_graph impacted current stack,
     current ∈ impacted →
     visit reverse_graph (impacted, current :: stack) = Some (impacted, stack)) ∧
  (∀ reverse_graph st st',
     visit reverse_graph st = Some st' →
     remaining reverse_graph st' < remaining reverse_graph st).
Proof.
  apply (simulate_failure_terminates cyclic_architecture "a" 4).
  vm_compute. lia.
Defined.

(** ** C8 *)

Lemma critical_types_spec (t : string) :
  t ∈ critical_types ↔
  t = "database" ∨ t = "gateway" ∨ t = "external_api" ∨ t = "queue".
Proof. unfold critical_types. set_solver. Qed.

(** C8. The scenario selector returns a subsequence of the component names in
    their insertion order. When some component has one of the types database,
    gateway, external_api and queue, it returns the names stored with such a
    component and no other; when none has, it returns all the names. For an
    architecture with a component the list is not empty. (The function has no
    failing path: it is total.) *)
Theorem generate_failure_scenarios_spec (arch : Architecture) :
  let critical (t : string) :=
    t = "database" ∨ t = "gateway" ∨ t = "external_api" ∨ t = "queue" in
  let scenarios := generate_failure_scenarios arch in
  sublist scenarios (Dict.keys (components arch)) ∧
  ((∃ item, item ∈ Dict.items (components arch) ∧ critical (ctype item.2)) →
   scenarios = (filter (λ item, critical (ctype item.2))
                       (Dict.items (components arch))).*1) ∧
  ((∀ item, item ∈ Dict.items (components arch) → ¬ critical (ctype item.2)) →
   scenarios = Dict.keys (components arch)) ∧
  (components arch ≠ [] → scenarios ≠ []).
Proof.
  intros critical scenarios. subst scenarios. unfold generate_failure_scenarios.
  set (found := filter _ _).
  assert (Hfound : found = filter (λ item, critical (ctype item.2))
                                  (Dict.items (components arch))).
  { subst found. apply list_filter_iff. intros item. apply critical_types_spec. }
  split_and!.
  - case_bool_decide; [done|]. unfold Dict.keys.
    apply fmap_sublist, sublist_filter.
  - intros (item & Hin & Hc). rewrite bool_decide_eq_false_2; [by rewrite Hfound|].
    intros Hnil. apply fmap_nil_inv in Hnil.
    assert (Hi : item ∈ found).
    { subst found. apply list_elem_of_filter. split; [|done].
      by apply critical_types_spec. }
    rewrite Hnil in Hi. by apply elem_of_nil in Hi.
  - intros Hnone. rewrite bool_decide_eq_true_2; [done|].
    rewrite Hfound, (elem_of_nil_inv (filter _ _)); [done|].
    intros item [Hc Hin]%list_elem_of_filter. by apply (Hnone item).
  - intros Hne. case_bool_decide as Hnil; [|done].
    unfold Dict.keys. destruct (components arch); [done|discriminate].
Qed.

Lemma generate_failure_scenarios_spec_witness :
  generate_failure_scenarios worked_architecture = ["G"; "D"] ∧
  generate_failure_scenarios dangling_architecture = ["web"].
Proof.
  split.
  - destruct (generate_failure_scenarios_spec worked_architecture)
      as (_ & Hsome & _ & _).
    rewrite Hsome; [by vm_compute|].
    exists ("G", worked_G). split; [left|]. right. by left.
  - destruct (generate_failure_scenarios_spec dangling_architecture)
      as (_ & _ & Hnone & _).
    rewrite Hnone; [done|].
    intros item Hin. apply list_elem_of_singleton in Hin as ->. simpl.
    intros [?|[?|[?|?]]]; discriminate.
Defined.

(** ** C6 *)

Lemma scenarios_are_components arch x :
  x ∈ generate_failure_scenarios arch → x ∈ Dict.keys (components arch).
Proof.
  unfold generate_failure_scenarios. case_bool_decide; [done|].
  intros ((k & comp) & -> & Hin)%list_elem_of_fmap.
  apply list_elem_of_filter in Hin as [_ Hin]. by eapply dict_item_key.
Qed.

Lemma summarize_all_Returns fuel arch ids acc :
  enough_fuel arch ≤ fuel →
  (∀ x, x ∈ ids → x ∈ Dict.keys (components arch)) →
  ∃ summaries,
    orchestrator.summarize_all fuel arch ids acc = Some (Returns summaries).
Proof.
  intros Hfuel. revert acc. induction ids as [|x ids IH]; intros acc Hids; simpl.
  - eauto.
  - destruct (simulate_failure_Returns arch x fuel) as
      (fg & rg & impacted & score & _ & _ & _ & _ & Hsim & _);
      [apply Hids; left|exact Hfuel|].
    unfold orchestrator.summarize. rewrite Hsim. simpl.
    apply IH. intros y Hy. apply Hids. by right.
Qed.

(** C6. [simulate_failure] on a name that is no key of [arch.components]
    raises the [ValueError] that says the component was not found; on a key it
    returns a result and raises nothing. The scenario selector yields keys of
    [arch.components] only, so that the run of the failure simulation agent
    over its scenarios raises nothing either. *)
Theorem simulate_failure_unknown_component arch failed fuel :
  (failed ∉ Dict.keys (components arch) →
   simulate_failure fuel arch failed
   = Some (Raises (ValueError ("Component '" +:+ failed
                               +:+ "' not found in architecture.")))) ∧
  (failed ∈ Dict.keys (components arch) → enough_fuel arch ≤ fuel →
   ∃ r, simulate_failure fuel arch failed = Some (Returns r)) ∧
  (∀ x, x ∈ generate_failure_scenarios arch →
        x ∈ Dict.keys (components arch)) ∧
  (enough_fuel arch ≤ fuel →
   ∀ self_name context, ∃ r,
     orchestrator.FailureSimulationAgent_run self_name fuel arch context
     = Some (Returns r)).
Proof.
  split_and!.
  - intros Hout. apply dict_contains_false in Hout.
    unfold simulate_failure. by rewrite Hout.
  - intros Hin Hfuel.
    destruct (simulate_failure_Returns arch failed fuel Hin Hfuel)
      as (fg & rg & impacted & score & _ & _ & _ & _ & Hsim & _).
    eauto.
  - apply scenarios_are_components.
  - intros Hfuel self_name context.
    unfold orchestrator.FailureSimulationAgent_run.
    destruct (summarize_all_Returns fuel arch
                (generate_failure_scenarios arch) [] Hfuel
                (scenarios_are_components arch)) as (summaries & ->).
    simpl. eauto.
Qed.

Lemma simulate_failure_unknown_component_witness :
  simulate_failure 3 worked_architecture "X"
  = Some (Raises (ValueError "Component 'X' not found in architecture.")) ∧
  (∃ r, simulate_failure 3 worked_architecture "S" = Some (Returns r)) ∧
  (∃ r, orchestrator.FailureSimulationAgent_run
          "failure_simulation_agent" 3 worked_architecture None
        = Some (Returns r)).
Proof.
  destruct (simulate_failure_unknown_component worked_architecture "X" 3)
    as (Hunknown & _ & _ & Hrun).
  destruct (simulate_failure_unknown_component worked_architecture "S" 3)
    as (_ & Hknown & _ & _).
  split_and!.
  - apply Hunknown. vm_compute. intros Hin.
    repeat (apply elem_of_cons in Hin as [Hin|Hin]; [discriminate|]).
    by apply elem_of_nil in Hin.
  - apply Hknown; vm_compute; [|lia]. right. left.
  - apply Hrun. vm_compute. lia.
Defined.

(** ** C5 *)

Import security_analysis.

(** The rule table as the specification words it: a condition on the
    component, the risk type and the severity. *)
Definition rule_table : list ((Component → bool) * string * string) :=
  [ (λ comp, public comp
             && bool_decide (ctype comp = "gateway" ∨ ctype comp = "service"
                             ∨ ctype comp = "web_client"),
     "Denial-of-Service", "High");
    (λ comp, public comp && bool_decide (ctype comp = "database"),
     "Data Exposure", "High");
    (λ comp, bool_decide (ctype comp = "external_api"),
     "External Dependency Risk", "Medium") ].

(** The (component, risk type, severity) triples the table yields for one
    component, in the order of the table. *)
Definition table_triples (comp : Component) : list (string * string * string) :=
  (λ rule : (Component → bool) * string * string,
     (name comp, rule.1.2, rule.2))
  <$> filter (λ rule : (Component → bool) * string * string,
                rule.1.1 comp = true) rule_table.

Definition triple (r : SecurityRisk) : string * string * string :=
  (component r, risk_type r, severity r).

(** The risks of one component as the code builds them, before [seen] is
    consulted. *)
Definition component_risks (comp : Component) : list SecurityRisk :=
  (if public comp && bool_decide (ctype comp ∈ public_facing_types)
   then [dos_risk comp] else [])
  ++ (if public comp && bool_decide (ctype comp = "database")
      then [data_exposure_risk comp] else [])
  ++ (if bool_decide (ctype comp = "external_api")
      then [external_api_risk comp] else []).

(** The tag under which a risk type is remembered in [seen]. *)
Definition seen_tag (risk_type : string) : string :=
  if decide (risk_type = "Denial-of-Service") then "DoS"
  else if decide (risk_type = "External Dependency Risk") then "External API"
  else risk_type.

Definition seen_key (r : SecurityRisk) : string * string :=
  (component r, seen_tag (risk_type r)).

Definition report (st : findings) (r : SecurityRisk) : findings :=
  report_once (seen_key r) r st.

Lemma analyze_component_report st comp :
  analyze_component st comp = foldl report st (component_risks comp).
Proof.
  unfold analyze_component, component_risks.
  destruct (public comp && bool_decide (ctype comp ∈ public_facing_types)),
    (public comp && bool_decide (ctype comp = "database")),
    (bool_decide (ctype comp = "external_api")); reflexivity.
Qed.

Lemma analyze_components_report st comps :
  foldl analyze_component st comps = foldl report st (comps ≫= component_risks).
Proof.
  revert st. induction comps as [|comp comps IH]; intros st; [done|].
  cbn [foldl]. rewrite bind_cons, foldl_app, IH.
  by rewrite analyze_component_report.
Qed.

Lemma component_risks_triples comp :
  triple <$> component_risks comp = table_triples comp.
Proof.
  unfold component_risks, table_triples, rule_table, public_facing_types.
  rewrite !filter_cons, filter_nil. simpl.
  assert (Hset : bool_decide (ctype comp ∈ ({[ "gateway"; "service"; "web_client" ]} : gset string))
                 = bool_decide (ctype comp = "gateway" ∨ ctype comp = "service"
                                ∨ ctype comp = "web_client")).
  { apply bool_decide_ext. set_solver. }
  rewrite Hset.
  destruct (public comp),
    (bool_decide (ctype comp = "gateway" ∨ ctype comp = "service"
                  ∨ ctype comp = "web_client")),
    (bool_decide (ctype comp = "database")),
    (bool_decide (ctype comp = "external_api")); reflexivity.
Qed.

Lemma component_risks_inv comp r :
  r ∈ component_risks comp →
  component r = name comp ∧
  (risk_type r = "Denial-of-Service" ∨ risk_type r = "Data Exposure"
   ∨ risk_type r = "External Dependency Risk").
Proof.
  unfold component_risks. rewrite !elem_of_app.
  intros [H|[H|H]]; destruct (_ : bool) in H;
    try (by apply elem_of_nil in H);
    apply list_elem_of_singleton in H as ->; simpl; auto.
Qed.

Lemma seen_tag_inj t1 t2 :
  (t1 = "Denial-of-Service" ∨ t1 = "Data Exposure"
   ∨ t1 = "External Dependency Risk") →
  (t2 = "Denial-of-Service" ∨ t2 = "Data Exposure"
   ∨ t2 = "External Dependency Risk") →
  seen_tag t1 = seen_tag t2 → t1 = t2.
Proof. intros [-> | [-> | ->]] [-> | [-> | ->]]; vm_compute; congruence. Qed.

(** [seen] holds the keys of the risks reported so far, each once. *)
Definition seen_inv (st : findings) : Prop :=
  NoDup (seen_key <$> st.1) ∧ ∀ k, k ∈ st.2 ↔ k ∈ seen_key <$> st.1.

Lemma report_all (l : list SecurityRisk) (st : findings) :
  seen_inv st →
  ∃ new,
    (foldl report st l).1 = st.1 ++ new ∧
    sublist new l ∧
    seen_inv (foldl report st l) ∧
    (∀ r, r ∈ l → seen_key r ∈ (foldl report st l).2) ∧
    (NoDup (seen_key <$> l) → (∀ r, r ∈ l → seen_key r ∉ st.2) → new = l).
Proof.
  revert st. induction l as [|r l IH]; intros [risks seen] Hinv.
  - exists []. simpl. rewrite app_nil_r. split_and!; try done.
    intros r Hr. by apply elem_of_nil in Hr.
  - cbn [foldl]. unfold report at 2, report_once.
    destruct Hinv as [Hnd Hseen]; simpl in *.
    destruct (decide (seen_key r ∉ seen)) as [Hnew|Hold].
    + destruct (IH (risks ++ [r], seen ∪ {[ seen_key r ]}))
        as (new & Heq & Hsub & Hinv' & Hall & Hfull).
      { split; simpl.
        - rewrite fmap_app. apply NoDup_app. split_and!; [done| |apply NoDup_singleton].
          intros k Hk Hk'. apply list_elem_of_singleton in Hk' as ->.
          by apply Hnew, Hseen.
        - intros k. rewrite fmap_app, elem_of_app, elem_of_union, Hseen.
          simpl. rewrite list_elem_of_singleton, elem_of_singleton. done. }
      exists (r :: new). simpl in *. split_and!.
      * rewrite Heq, <- app_assoc. done.
      * by constructor.
      * exact Hinv'.
      * intros r' [->|Hr']%elem_of_cons; [|by apply Hall].
        destruct Hinv' as [_ Hs']. apply Hs'. rewrite Heq, !fmap_app.
        apply elem_of_app. left. apply elem_of_app. right. simpl. left.
      * intros [Hr Hndl]%NoDup_cons Hfresh. f_equal. apply Hfull; [done|].
        intros r' Hr' Hin. apply elem_of_union in Hin as [Hin|Hin].
        -- eapply Hfresh; [right; exact Hr'|done].
        -- apply elem_of_singleton in Hin. apply Hr. rewrite <- Hin.
           by apply list_elem_of_fmap_2.
    + destruct (IH (risks, seen)) as (new & Heq & Hsub & Hinv' & Hall & Hfull).
      { by split. }
      exists new. simpl in *. split_and!.
      * exact Heq.
      * by apply sublist_cons.
      * exact Hinv'.
      * intros r' [->|Hr']%elem_of_cons; [|by apply Hall].
        destruct Hinv' as [_ Hs']. apply Hs'. rewrite Heq, fmap_app.
        apply elem_of_app. left. apply Hseen. by apply dec_stable.
      * intros _ Hfresh. exfalso. apply Hold. apply Hfresh. left.
Qed.

Lemma risks_triples (comps : list Component) :
  triple <$> (comps ≫= component_risks) = comps ≫= table_triples.
Proof.
  induction comps as [|comp comps IH]; [done|].
  by rewrite !bind_cons, fmap_app, IH, component_risks_triples.
Qed.

Lemma risks_inv (comps : list Component) r :
  r ∈ comps ≫= component_risks →
  component r ∈ name <$> comps ∧
  (risk_type r = "Denial-of-Service" ∨ risk_type r = "Data Exposure"
   ∨ risk_type r = "External Dependency Risk").
Proof.
  intros (comp & Hr & Hc)%list_elem_of_bind.
  apply component_risks_inv in Hr as [-> ?]. split; [|done].
  by apply list_elem_of_fmap_2.
Qed.

Lemma component_risks_NoDup comp : NoDup (seen_key <$> component_risks comp).
Proof.
  unfold component_risks.
  destruct (public comp && bool_decide (ctype comp ∈ public_facing_types)),
    (public comp && bool_decide (ctype comp = "database")),
    (bool_decide (ctype comp = "external_api")); simpl;
    repeat (apply NoDup_cons; split); try apply NoDup_nil_2;
    rewrite ?elem_of_cons, ?elem_of_nil; unfold seen_key; simpl;
    intuition discriminate.
Qed.

Lemma risks_NoDup (comps : list Component) :
  NoDup (name <$> comps) → NoDup (seen_key <$> (comps ≫= component_risks)).
Proof.
  induction comps as [|comp comps IH]; [intros _; apply NoDup_nil_2|].
  rewrite fmap_cons, bind_cons, fmap_app.
  intros [Hfresh Hnd]%NoDup_cons. apply NoDup_app. split_and!.
  - apply component_risks_NoDup.
  - intros k (r & -> & Hr)%list_elem_of_fmap (r' & Heq & Hr')%list_elem_of_fmap.
    apply component_risks_inv in Hr as [Hc _].
    apply risks_inv in Hr' as [Hc' _].
    apply Hfresh. unfold seen_key in Heq. injection Heq as Heq _.
    by rewrite <- Hc, Heq.
  - by apply IH.
Qed.

(** C5. No two risks returned by [analyze_security] have the same component
    and risk type. The risks follow the rule table, component after
    component in the order of [arch.components]: their (component, risk type,
    severity) triples are a subsequence of the triples the table yields,
    every pair (component, risk type) the table yields is reported, and when
    the components bear distinct names (each is stored under its own name)
    the triples are exactly those of the table. *)
Theorem analyze_security_no_duplicates (arch : Architecture) :
  let risks := analyze_security arch in
  let comps := Dict.values (components arch) in
  NoDup ((λ r, (component r, risk_type r)) <$> risks) ∧
  sublist (triple <$> risks) (comps ≫= table_triples) ∧
  (∀ t, t ∈ comps ≫= table_triples →
        t.1 ∈ (λ r, (component r, risk_type r)) <$> risks) ∧
  (NoDup (name <$> comps) → triple <$> risks = comps ≫= table_triples).
Proof.
  intros risks comps. subst risks. unfold analyze_security. fold comps.
  rewrite analyze_components_report.
  destruct (report_all (comps ≫= component_risks) ([], ∅))
    as (new & Heq & Hsub & [Hnd Hseen] & Hall & Hfull).
  { split; simpl; [apply NoDup_nil_2|]. intros k. set_solver. }
  simpl in Heq. rewrite Heq in *. rewrite <- risks_triples. split_and!.
  - apply (NoDup_fmap_1 (λ k : string * string, (k.1, seen_tag k.2))).
    by rewrite <- list_fmap_compose.
  - by apply fmap_sublist.
  - intros t (r & -> & Hr)%list_elem_of_fmap.
    pose proof (Hall r Hr) as Hk. apply Hseen in Hk.
    apply list_elem_of_fmap in Hk as (r' & Hkey & Hr').
    apply list_elem_of_fmap. exists r'. split; [|done].
    assert (Hr'' : r' ∈ comps ≫= component_risks).
    { eapply elem_of_sublist; [exact Hr'|exact Hsub]. }
    apply risks_inv in Hr as [_ Ht]. apply risks_inv in Hr'' as [_ Ht'].
    unfold seen_key in Hkey. injection Hkey as Hc Htag.
    simpl. rewrite Hc. f_equal. by apply seen_tag_inj.
  - intros Hnames. f_equal. apply Hfull; [by apply risks_NoDup|].
    intros r _. simpl. set_solver.
Qed.

(** Two components stored under different keys and bearing the same name. *)
Definition homonymous_architecture : Architecture :=
  mkArchitecture "homonymous"
    [("edge", mkComponent "api" "gateway" true [] "high");
     ("core", mkComponent "api" "service" true [] "medium")].

Lemma analyze_security_no_duplicates_witness :
  triple <$> analyze_security worked_architecture
  = [("G", "Denial-of-Service", "High")] ∧
  NoDup ((λ r, (component r, risk_type r))
         <$> analyze_security homonymous_architecture).
Proof.
  split.
  - destruct (analyze_security_no_duplicates worked_architecture)
      as (_ & _ & _ & Hexact).
    rewrite Hexact; [by vm_compute|].
    vm_compute. repeat (apply NoDup_cons; split); try apply NoDup_nil_2;
      rewrite ?elem_of_cons, ?elem_of_nil; intuition discriminate.
  - apply (analyze_security_no_duplicates homonymous_architecture).
Defined.

(** ** C3 *)

Import orchestrator.



Lemma round_half_even_comp (x y : Q) :
  (x == y)%Q → round_half_even x = round_half_even y.
Proof.
  intros Hxy. unfold round_half_even.
  rewrite (Qfloor_comp x y Hxy).
  assert (Hc : (x - inject_Z (Qfloor y) ?= (1 # 2))%Q
               = (y - inject_Z (Qfloor y) ?= (1 # 2))%Q).
  { apply Qcompare_comp; [by rewrite Hxy|reflexivity]. }
  by rewrite Hc.
Qed.

Lemma round2_comp (x y : Q) : (x == y)%Q → round2 x = round2 y.
Proof.
  intros Hxy. unfold round2. apply Qred_complete.
  rewrite (round_half_even_comp (x * 100) (y * 100)); [reflexivity|].
  by rewrite Hxy.
Qed.

Lemma round_half_even_Z (z : Z) : round_half_even (inject_Z z) = z.
Proof.
  unfold round_half_even. rewrite Qfloor_Z.
  assert (Hc : (inject_Z z - inject_Z z ?= (1 # 2))%Q = Lt).
  { rewrite <- Qlt_alt. lra. }
  by rewrite Hc.
Qed.

(** A float with at most two decimals is left as it is by [round(x, 2)]. *)
Lemma round2_two_decimals (x : Q) (z : Z) :
  (x == z # 100)%Q → (round2 x == x)%Q.
Proof.
  intros Hx. unfold round2. rewrite Qred_correct.
  rewrite (round_half_even_comp (x * 100) (inject_Z z)).
  - rewrite round_half_even_Z, Hx. unfold Qeq, Qdiv, Qmult, Qinv, inject_Z.
    simpl. lia.
  - rewrite Hx. unfold Qeq, Qmult, inject_Z. simpl. lia.
Qed.









(** The worst-case severity is rounded, so it is not the greatest severity
    when that one has a third decimal. *)
Lemma aggregate_rounds_worst_case :
  let scenarios := [mkScenarioSummary "X FAILURE" "X" (1234 # 1000) false ["X"]] in
  let report :=
    (ReportingAgent_run "reporting_agent" worked_architecture scenarios
       [] None).1 in
  (worst_case_severity report == 123 # 100)%Q ∧
  ¬ (worst_case_severity report == 1234 # 1000)%Q.
Proof. split; by vm_compute. Qed.

(** ** C7 *)

(** What the advisory collaborator hands over: the client is built, then
    asked for suggestions. *)
Definition collaborator (w : llm_client.Gemini)
  : outcome (llm_client.LLMClient * list (Dict.t pyval)) :=
  client ← llm_client.__init__ w ;
  extra ← llm_client.generate_remediation_suggestions client ;
  Returns (client, extra).

(** The events a run of the remediation agent appends to the log, around the
    event [middle] of pass 4. *)
Definition remediation_events (self_name : string) (arch : Architecture)
    (report : SystemReport) (middle : list agent_context.AgentEvent)
    (suggestions : list remediation_agent.RemediationSuggestion)
  : list agent_context.AgentEvent :=
  [agent_context.mkAgentEvent self_name "start"
     [("system_name", PStr (architecture_model.system_name arch));
      ("overall_resilience", PFloat (overall_resilience_score report))]]
  ++ middle
  ++ [agent_context.mkAgentEvent self_name "done"
        [("suggestions", len suggestions)]].

Lemma llm_enhance_collaborator self_name w suggestions context :
  remediation_agent.llm_enhance self_name w suggestions context
  = '(client, extra) ← collaborator w ;
    Returns (suggestions ++ (remediation_agent.from_extra <$> extra),
             agent_context.log_if context self_name "llm_enhanced"
               [("added_count", len extra);
                ("model", PStr (llm_client.model_name client))]).
Proof.
  unfold remediation_agent.llm_enhance, collaborator.
  destruct (llm_client.__init__ w) as [client|e]; [|done]. simpl.
  by destruct (llm_client.generate_remediation_suggestions client).
Qed.

Lemma init_world w client :
  llm_client.__init__ w = Returns client → llm_client.world client = w.
Proof.
  unfold llm_client.__init__. destruct (llm_client.api_key w) as [[|]|]; try done.
  destruct (llm_client.configure w); [|done]. simpl. by intros [= <-].
Qed.

(** A response that is no JSON document, or no JSON array, is answered by the
    client with the empty list: nothing is raised. *)
Lemma generate_remediation_suggestions_malformed client text :
  llm_client.generate_content (llm_client.world client) = Returns text →
  (∀ data, llm_client.json_loads (llm_client.world client) text
           ≠ Returns (PList data)) →
  llm_client.generate_remediation_suggestions client = Returns [].
Proof.
  intros Htext Hshape. unfold llm_client.generate_remediation_suggestions.
  rewrite Htext. simpl.
  destruct (llm_client.json_loads _ text) as [[]|]; try done.
  by edestruct Hshape.
Qed.

(** C7, as the code has it. [RemediationAgent.run] raises nothing, whatever
    the collaborator does. Without a collaborator the suggestions are the
    rule-based ones. When building the client or asking it raises [e], the
    suggestions are the rule-based ones and, if a context was given, the log
    gains an [llm_failed] event that holds [str(e)]. When the response is no
    JSON array (undecodable, or of another shape), the client answers with
    the empty list: the suggestions are the rule-based ones and the log gains
    an [llm_enhanced] event with [added_count] 0, no error. When the client
    answers with objects, one suggestion per object follows the rule-based
    ones, a missing field taking its default. *)
Theorem remediation_is_best_effort self_name llm arch report context :
  ∃ suggestions context',
    remediation_agent.RemediationAgent_run self_name llm arch report context
    = Returns (suggestions, context') ∧
    (llm = None → suggestions = remediation_agent.rule_based arch report) ∧
    (∀ w e, llm = Some w → collaborator w = Raises e →
       suggestions = remediation_agent.rule_based arch report ∧
       ∀ c, context = Some c →
         ∃ c', context' = Some c' ∧
           agent_context.events c'
           = agent_context.events c
             ++ remediation_events self_name arch report
                  [agent_context.mkAgentEvent self_name "llm_failed"
                     [("error", PStr (remediation_agent.str_of_exn e))]]
                  suggestions) ∧
    (∀ w client text, llm = Some w →
       llm_client.__init__ w = Returns client →
       llm_client.generate_content w = Returns text →
       (∀ data, llm_client.json_loads w text ≠ Returns (PList data)) →
       suggestions = remediation_agent.rule_based arch report ∧
       ∀ c, context = Some c →
         ∃ c', context' = Some c' ∧
           agent_context.events c'
           = agent_context.events c
             ++ remediation_events self_name arch report
                  [agent_context.mkAgentEvent self_name "llm_enhanced"
                     [("added_count", PInt 0);
                      ("model", PStr (llm_client.model_name client))]]
                  suggestions) ∧
    (∀ w client extra, llm = Some w →
       collaborator w = Returns (client, extra) →
       suggestions = remediation_agent.rule_based arch report
                     ++ (remediation_agent.from_extra <$> extra)) ∧
    (∀ s : Dict.t pyval,
       (Dict.get s "category" = None →
        remediation_agent.category (remediation_agent.from_extra s)
        = PStr "resilience") ∧
       (Dict.get s "target" = None →
        remediation_agent.target (remediation_agent.from_extra s)
        = PStr "system") ∧
       (Dict.get s "priority" = None →
        remediation_agent.priority (remediation_agent.from_extra s)
        = PStr "medium") ∧
       (Dict.get s "title" = None →
        remediation_agent.title (remediation_agent.from_extra s)
        = PStr "AI-suggested remediation") ∧
       (Dict.get s "details" = None →
        remediation_agent.details (remediation_agent.from_extra s)
        = PStr EmptyString)).
Proof.
  unfold remediation_agent.RemediationAgent_run, remediation_agent.augment.
  destruct llm as [w|].
  - rewrite llm_enhance_collaborator.
    destruct (collaborator w) as [[client extra]|e] eqn:Hc; simpl;
      eexists _, _; (split; [reflexivity|]); split_and!; try done.
    + intros w' e' [= <-] He. by rewrite Hc in He.
    + intros w' client' text [= <-] Hinit Htext Hshape.
      assert (Hextra : extra = [] ∧ client' = client).
      { unfold collaborator in Hc. rewrite Hinit in Hc. simpl in Hc.
        rewrite (generate_remediation_suggestions_malformed client' text) in Hc.
        - by injection Hc as <- <-.
        - by rewrite (init_world w client').
        - by rewrite (init_world w client'). }
      destruct Hextra as [-> ->]. simpl. rewrite app_nil_r. split; [done|].
      intros c ->. simpl. eexists. split; [reflexivity|]. simpl.
      by rewrite <- !app_assoc.
    + intros w' client' extra' [= <-] He. rewrite Hc in He.
      by injection He as <- <-.
    + intros s. unfold remediation_agent.get_or. split_and!; by intros ->.
    + intros w' e' [= <-] He. rewrite Hc in He. injection He as <-.
      split; [done|].
      intros c ->. simpl. eexists. split; [reflexivity|]. simpl.
      by rewrite <- !app_assoc.
    + intros w' client' text [= <-] Hinit Htext Hshape. exfalso.
      unfold collaborator in Hc. rewrite Hinit in Hc. simpl in Hc.
      rewrite (generate_remediation_suggestions_malformed client' text) in Hc;
        [done| |]; by rewrite (init_world w client').
    + intros w' client' extra' [= <-] He. by rewrite Hc in He.
    + intros s. unfold remediation_agent.get_or. split_and!; by intros ->.
  - simpl. eexists _, _. split; [reflexivity|]. split_and!; try done.
    intros s. unfold remediation_agent.get_or. split_and!; by intros ->.
Qed.

(** A report without scenarios and without risks. *)
Definition quiet_report : SystemReport := mkSystemReport "worked" [] [] 10 0.

(** No API key in the environment: [LLMClient()] raises. *)
Definition gemini_without_key : llm_client.Gemini :=
  llm_client.mkGemini None None (Returns ()) (Returns "[]")
    (λ _, Returns (PList [])).

(** The model answers with prose, which [json.loads] refuses. *)
Definition gemini_answering_prose : llm_client.Gemini :=
  llm_client.mkGemini (Some "key") None (Returns ())
    (Returns "Here are my suggestions.")
    (λ _, Raises (ValueError "Expecting value: line 1 column 1 (char 0)")).

Lemma remediation_is_best_effort_witness :
  ∃ suggestions context',
    remediation_agent.RemediationAgent_run "remediation_agent"
      (Some gemini_without_key) worked_architecture quiet_report
      (Some (agent_context.mkAgentContext "run" [] []))
    = Returns (suggestions, context') ∧
    suggestions = remediation_agent.rule_based worked_architecture quiet_report ∧
    ∃ c', context' = Some c' ∧
      agent_context.step <$> agent_context.events c'
      = ["start"; "llm_failed"; "done"].
Proof.
  destruct (remediation_is_best_effort "remediation_agent"
              (Some gemini_without_key) worked_architecture quiet_report
              (Some (agent_context.mkAgentContext "run" [] [])))
    as (suggestions & context' & Hrun & _ & Hfail & _).
  exists suggestions, context'. split; [exact Hrun|].
  destruct (Hfail gemini_without_key
              (RuntimeError
                 "GEMINI_API_KEY not found. Please add it to your .env file."))
    as [Hs Hlog]; [reflexivity|reflexivity|].
  split; [exact Hs|].
  destruct (Hlog _ eq_refl) as (c' & -> & Hev).
  exists c'. split; [reflexivity|]. rewrite Hev. reflexivity.
Defined.

(** C7 as stated fails on a malformed response: the error of [json.loads] is
    dropped inside the client, and the log of the run holds an [llm_enhanced]
    event that counts zero additions, no [llm_failed] event and no error. *)
Lemma malformed_response_is_not_logged :
  ∃ c',
    remediation_agent.RemediationAgent_run "remediation_agent"
      (Some gemini_answering_prose) worked_architecture quiet_report
      (Some (agent_context.mkAgentContext "run" [] []))
    = Returns (remediation_agent.rule_based worked_architecture quiet_report,
               Some c') ∧
    agent_context.step <$> agent_context.events c'
    = ["start"; "llm_enhanced"; "done"] ∧
    Forall (λ ev, Dict.get (agent_context.details ev) "error" = None)
           (agent_context.events c').
Proof.
  eexists. split; [by vm_compute|]. split; [reflexivity|].
  repeat constructor.
Qed.

(** * Further properties of the code *)

(** ** The severity score *)

(** What one impacted component adds to the score. *)
Definition component_weight (comp : Component) : Q :=
  ((if decide (ctype comp ∈ critical_types) then 1 # 2 else 0)
   + (if decide (lower (criticality comp) = "high") then 1
      else if decide (lower (criticality comp) = "medium") then 1 # 2
      else 0))%Q.

(** What the impacted components add to the score together. *)
Definition total_weight (components : Dict.t Component) (l : list string) : Q :=
  foldr (λ name acc,
           (match Dict.get components name with
            | Some comp => component_weight comp
            | None => 0
            end + acc)%Q) 0%Q l.

(** The two [if] of [compute_severity] that clamp the score. *)
Definition clamp_score (score : Q) : Q :=
  let score := if Qlt_le_dec 10 score then 10%Q else score in
  if Qlt_le_dec score 0 then 0%Q else score.

(** The score before it is clamped and rounded. *)
Definition raw_score (arch : Architecture) (l : list string)
    (user_visible : bool) : Q :=
  (Qmin (inject_Z (Z.of_nat (length l)) * 1) 5
   + (if user_visible then 3 else 0)
   + total_weight (components arch) l)%Q.

Definition half_integral (q : Q) : Prop := ∃ k : Z, (q == k # 2)%Q.

Lemma half_integral_plus (x y : Q) :
  half_integral x → half_integral y → half_integral (x + y).
Proof.
  intros [a Ha] [b Hb]. exists (a + b)%Z. rewrite Ha, Hb.
  unfold Qeq, Qplus. simpl. lia.
Qed.

Lemma half_integral_Z (z : Z) : half_integral (inject_Z z).
Proof. exists (2 * z)%Z. unfold Qeq, inject_Z. simpl. lia. Qed.

Lemma half_integral_half : half_integral (1 # 2).
Proof. by exists 1%Z. Qed.

Lemma half_integral_comp (x y : Q) :
  (x == y)%Q → half_integral x → half_integral y.
Proof. intros Hxy [k Hk]. exists k. by rewrite <- Hxy. Qed.

Lemma component_weight_half comp :
  half_integral (component_weight comp) ∧ (0 <= component_weight comp)%Q.
Proof.
  unfold component_weight. split.
  - apply half_integral_plus; repeat case_decide;
      first [apply half_integral_half | apply (half_integral_Z 0)
            | apply (half_integral_Z 1)].
  - repeat case_decide; lra.
Qed.

Lemma total_weight_half components l :
  half_integral (total_weight components l)
  ∧ (0 <= total_weight components l)%Q.
Proof.
  induction l as [|name l [IHh IHp]]; simpl.
  - split; [apply (half_integral_Z 0)|lra].
  - destruct (Dict.get components name) as [comp|].
    + destruct (component_weight_half comp) as [Hh Hp]. split.
      * by apply half_integral_plus.
      * lra.
    + split; [|lra]. apply half_integral_plus; [apply (half_integral_Z 0)|done].
Qed.

Lemma total_weight_Permutation components l l' :
  l ≡ₚ l' → (total_weight components l == total_weight components l')%Q.
Proof.
  induction 1 as [|x l l' _ IH|x y l|l l' l'' _ IH1 _ IH2]; simpl.
  - reflexivity.
  - by rewrite IH.
  - ring.
  - by rewrite IH1.
Qed.

Lemma add_component_weight_sum components name score q :
  add_component_weight components name score = Returns q →
  ∃ comp, Dict.get components name = Some comp ∧
          (q == score + component_weight comp)%Q.
Proof.
  unfold add_component_weight, Dict.getitem.
  destruct (Dict.get components name) as [comp|]; [|done]. simpl.
  intros [= <-]. exists comp. split; [done|]. unfold component_weight.
  repeat case_decide; ring.
Qed.

Lemma add_component_weights_sum components l score q :
  for_each (add_component_weight components) l score = Returns q →
  (q == score + total_weight components l)%Q
  ∧ ∀ y, y ∈ l → y ∈ Dict.keys components.
Proof.
  revert score. induction l as [|name l IH]; intros score; cbn [for_each].
  - intros [= <-]. simpl. split; [ring|]. intros y Hy. by apply elem_of_nil in Hy.
  - destruct (add_component_weight components name score) as [q1|e] eqn:H1;
      [|done].
    simpl. intros Hrest. apply IH in Hrest as [Hq Hl].
    apply add_component_weight_sum in H1 as (comp & Hget & Hq1).
    split.
    + rewrite Hq, Hq1. simpl. rewrite Hget. ring.
    + intros y [->|Hy]%elem_of_cons; [|by apply Hl].
      apply dict_in_keys. by rewrite Hget.
Qed.

(** The value [compute_severity] returns, when it returns. *)
Lemma compute_severity_value arch l user_visible q :
  compute_severity arch l user_visible = Returns q →
  q = round2 (clamp_score (raw_score arch l user_visible))
  ∧ ∀ y, y ∈ l → y ∈ Dict.keys (components arch).
Proof.
  unfold compute_severity.
  destruct (for_each _ l _) as [q1|e] eqn:Hloop; [|done]. simpl.
  intros [= <-]. apply add_component_weights_sum in Hloop as [Hq1 Hl].
  split; [|done]. apply round2_comp.
  assert (Heq : (q1 == raw_score arch l user_visible)%Q).
  { rewrite Hq1. unfold raw_score. destruct user_visible; ring. }
  unfold clamp_score. generalize dependent (raw_score arch l user_visible).
  intros raw Heq. clear Hq1.
  destruct (Qlt_le_dec 10 q1), (Qlt_le_dec 10 raw);
    repeat destruct (Qlt_le_dec _ 0); lra.
Qed.

Lemma raw_score_half arch l user_visible :
  half_integral (raw_score arch l user_visible)
  ∧ (0 <= raw_score arch l user_visible)%Q.
Proof.
  unfold raw_score.
  destruct (total_weight_half (components arch) l) as [Hh Hp].
  assert (Hn : (0 <= inject_Z (Z.of_nat (length l)) * 1)%Q).
  { unfold Qle, Qmult, inject_Z. simpl. lia. }
  split.
  - apply half_integral_plus; [apply half_integral_plus|done].
    + destruct (Q.min_dec (inject_Z (Z.of_nat (length l)) * 1) 5) as [He|He];
        apply (half_integral_comp _ _ (Qeq_sym _ _ He)).
      * apply (half_integral_comp (inject_Z (Z.of_nat (length l)))); [ring|].
        apply half_integral_Z.
      * apply (half_integral_Z 5).
    + destruct user_visible; [apply (half_integral_Z 3)|apply (half_integral_Z 0)].
  - assert (0 <= Qmin (inject_Z (Z.of_nat (length l)) * 1) 5)%Q.
    { apply Q.min_glb; [done|lra]. }
    destruct user_visible; lra.
Qed.

Lemma clamp_score_half (x : Q) :
  half_integral x →
  half_integral (clamp_score x) ∧ (0 <= clamp_score x <= 10)%Q.
Proof.
  intros Hx. unfold clamp_score.
  destruct (Qlt_le_dec 10 x); destruct (Qlt_le_dec _ 0); split;
    first [lra | done | apply (half_integral_Z 0) | apply (half_integral_Z 10)].
Qed.

Lemma round2_half (x : Q) : half_integral x → (round2 x == x)%Q.
Proof.
  intros [k Hk]. apply (round2_two_decimals x (50 * k)). rewrite Hk.
  unfold Qeq. simpl. lia.
Qed.

(** X1. Whenever [compute_severity] returns, the score is a multiple of 0.5
    between 0 and 10, and rounding changed nothing: it is the clamped sum of
    the capped fan-out, the visibility bonus and the weights of the impacted
    components. *)
Theorem compute_severity_range arch l user_visible q :
  compute_severity arch l user_visible = Returns q →
  (0 <= q <= 10)%Q ∧
  (∃ k : Z, q == k # 2)%Q ∧
  (q == clamp_score (raw_score arch l user_visible))%Q.
Proof.
  intros [-> _]%compute_severity_value.
  destruct (raw_score_half arch l user_visible) as [Hh _].
  destruct (clamp_score_half _ Hh) as [Hc Hb].
  pose proof (round2_half _ Hc) as Hr. split_and!.
  - rewrite Hr. tauto.
  - rewrite Hr. tauto.
  - destruct Hc as [k Hk]. exists k. by rewrite Hr.
  - exact Hr.
Qed.

Lemma compute_severity_range_witness :
  (0 <= 9 <= 10)%Q ∧ (∃ k : Z, 9 == k # 2)%Q ∧
  (9 == clamp_score (raw_score worked_architecture ["D"; "S"; "G"] true))%Q.
Proof.
  apply (compute_severity_range worked_architecture ["D"; "S"; "G"] true 9).
  by vm_compute.
Defined.

Lemma add_component_weight_KeyError components name score :
  name ∉ Dict.keys components →
  add_component_weight components name score = Raises (KeyError name).
Proof.
  rewrite dict_in_keys. intros Hname. unfold add_component_weight, Dict.getitem.
  destruct (Dict.get components name); [|reflexivity].
  exfalso. apply Hname. eauto.
Qed.

(** X2. [compute_severity] raises [KeyError] for the first impacted name that
    is no key of [arch.components], whatever follows it in the list. *)
Theorem compute_severity_KeyError arch l1 name l2 user_visible :
  (∀ y, y ∈ l1 → y ∈ Dict.keys (components arch)) →
  name ∉ Dict.keys (components arch) →
  compute_severity arch (l1 ++ name :: l2) user_visible
  = Raises (KeyError name).
Proof.
  intros Hl1 Hname. unfold compute_severity.
  generalize (0 + Qmin (inject_Z (Z.of_nat (length (l1 ++ name :: l2))) * 1) 5)%Q.
  intros q0. generalize (if user_visible then (q0 + 3)%Q else q0). clear q0.
  assert (Hloop : ∀ score,
             for_each (add_component_weight (components arch))
                      (l1 ++ name :: l2) score = Raises (KeyError name)).
  { induction l1 as [|y l1 IH]; intros score; cbn [for_each app].
    - by rewrite (add_component_weight_KeyError _ _ _ Hname).
    - destruct (add_component_weight_Returns (components arch) y score)
        as (q1 & ->); [apply Hl1; left|].
      simpl. apply IH. intros z Hz. apply Hl1. by right. }
  intros score. by rewrite Hloop.
Qed.

Lemma compute_severity_KeyError_witness :
  compute_severity worked_architecture (["D"] ++ "ghost" :: ["G"]) false
  = Raises (KeyError "ghost").
Proof.
  apply compute_severity_KeyError.
  - intros y ->%list_elem_of_singleton. by vm_compute; right; right; left.
  - vm_compute. intros Hin.
    repeat (apply elem_of_cons in Hin as [Hin|Hin]; [discriminate|]).
    by apply elem_of_nil in Hin.
Defined.

Lemma clamp_score_comp (x y : Q) :
  (x == y)%Q → (clamp_score x == clamp_score y)%Q.
Proof.
  intros Hxy. unfold clamp_score.
  destruct (Qlt_le_dec 10 x), (Qlt_le_dec 10 y);
    repeat destruct (Qlt_le_dec _ 0); lra.
Qed.

(** X3. The score does not depend on the order in which the impacted names
    are handed over: a reordered list gives the same score. *)
Theorem compute_severity_Permutation arch l l' user_visible q :
  l ≡ₚ l' →
  compute_severity arch l user_visible = Returns q →
  compute_severity arch l' user_visible = Returns q.
Proof.
  intros Hperm Hq. apply compute_severity_value in Hq as [-> Hl].
  destruct (compute_severity_Returns arch l' user_visible) as (q' & Hq').
  { intros y Hy. apply Hl. by rewrite Hperm. }
  rewrite Hq'. f_equal. apply compute_severity_value in Hq' as [-> _].
  apply round2_comp, clamp_score_comp. unfold raw_score.
  rewrite (Permutation_length Hperm).
  by rewrite (total_weight_Permutation _ l l' Hperm).
Qed.

Lemma compute_severity_Permutation_witness :
  compute_severity worked_architecture ["G"; "D"; "S"] true = Returns 9%Q.
Proof.
  apply (compute_severity_Permutation worked_architecture ["D"; "S"; "G"]).
  - symmetry. apply (Permutation_cons_append ["D"; "S"] "G").
  - by vm_compute.
Defined.

(** ** More on [simulate_failure] *)

Import simulation.

Lemma public_entrypoint_iff arch name :
  name ∈ _get_public_entrypoints arch ↔
  ∃ comp, (name, comp) ∈ Dict.items (components arch) ∧ public comp = true.
Proof.
  unfold _get_public_entrypoints. rewrite list_elem_of_fmap. split.
  - intros ([k comp] & -> & [Hp Hin]%list_elem_of_filter). by exists comp.
  - intros (comp & Hin & Hp). exists (name, comp). split; [done|].
    by apply list_elem_of_filter.
Qed.

(** X4. The failure of a component is flagged as visible to users exactly
    when one of the impacted components is public, and the note of the result
    says which of the two holds. *)
Theorem user_visible_iff_public_impacted arch failed fuel :
  failed ∈ Dict.keys (components arch) →
  enough_fuel arch ≤ fuel →
  ∃ r,
    simulate_failure fuel arch failed = Some (Returns r) ∧
    (user_visible_impact r = true ↔
     ∃ y comp, y ∈ impacted_components r ∧
               (y, comp) ∈ Dict.items (components arch) ∧
               public comp = true) ∧
    notes r = (if user_visible_impact r
               then "User-facing components are affected."
               else "No direct impact on public entrypoints.").
Proof.
  intros Hin Hfuel.
  destruct (simulate_failure_Returns arch failed fuel Hin Hfuel)
    as (fg & rg & impacted & score & _ & _ & _ & _ & Hsim & _).
  eexists. split; [exact Hsim|]. simpl. split; [|done].
  rewrite bool_decide_eq_true, Exists_exists. split.
  - intros (y & Hy & Himp). apply public_entrypoint_iff in Hy as (comp & ? & ?).
    exists y, comp. split_and!; try done.
    by apply sorted_elem, elem_of_elements.
  - intros (y & comp & Hy & Hc & Hp). exists y. split.
    + apply public_entrypoint_iff. by exists comp.
    + by apply sorted_elem, elem_of_elements in Hy.
Qed.

Lemma user_visible_iff_public_impacted_witness :
  ∃ r,
    simulate_failure 3 worked_architecture "S" = Some (Returns r) ∧
    (user_visible_impact r = true ↔
     ∃ y comp, y ∈ impacted_components r ∧
               (y, comp) ∈ Dict.items (components worked_architecture) ∧
               public comp = true) ∧
    notes r = (if user_visible_impact r
               then "User-facing components are affected."
               else "No direct impact on public entrypoints.").
Proof.
  apply (user_visible_iff_public_impacted worked_architecture "S" 3).
  - vm_compute. right. left.
  - vm_compute. lia.
Defined.

(** X5. Impact is inherited along dependencies: a component that lists
    [failed] in its [depends_on] is impacted by the failure of [failed], and
    whatever the failure of an impacted component impacts is impacted by the
    failure of [failed] too. *)
Theorem impact_is_inherited arch failed fuel :
  failed ∈ Dict.keys (components arch) →
  enough_fuel arch ≤ fuel →
  ∃ r,
    simulate_failure fuel arch failed = Some (Returns r) ∧
    (∀ y comp, (y, comp) ∈ Dict.items (components arch) →
               failed ∈ depends_on comp → y ∈ impacted_components r) ∧
    (∀ y, y ∈ impacted_components r →
          ∃ r', simulate_failure fuel arch y = Some (Returns r') ∧
                impacted_components r' ⊆ impacted_components r).
Proof.
  intros Hin Hfuel.
  destruct (simulate_failure_Returns arch failed fuel Hin Hfuel)
    as (fg & rg & impacted & score & Hb & _ & Hcl & Hedge & Hsim & _).
  eexists. split; [exact Hsim|]. simpl. split.
  - intros y comp Hy Hdep. apply sorted_elem, elem_of_elements, Hcl.
    apply rtc_once, Hedge. by exists comp.
  - intros y Hy. apply sorted_elem, elem_of_elements, Hcl in Hy.
    assert (Hyk : y ∈ Dict.keys (components arch)).
    { eapply reached_component; [|exact Hin].
      eapply rtc_subrel; [|exact Hy]. intros ??. apply Hedge. }
    destruct (simulate_failure_Returns arch y fuel Hyk Hfuel)
      as (fg' & rg' & impacted' & score' & Hb' & _ & Hcl' & _ & Hsim' & _).
    eexists. split; [exact Hsim'|]. simpl.
    rewrite Hb in Hb'. injection Hb' as <- <-.
    intros z Hz. apply sorted_elem, elem_of_elements, Hcl' in Hz.
    apply sorted_elem, elem_of_elements, Hcl. by etrans.
Qed.

Lemma impact_is_inherited_witness :
  ∃ r,
    simulate_failure 3 worked_architecture "D" = Some (Returns r) ∧
    (∀ y comp, (y, comp) ∈ Dict.items (components worked_architecture) →
               "D" ∈ depends_on comp → y ∈ impacted_components r) ∧
    (∀ y, y ∈ impacted_components r →
          ∃ r', simulate_failure 3 worked_architecture y = Some (Returns r') ∧
                impacted_components r' ⊆ impacted_components r).
Proof.
  apply (impact_is_inherited worked_architecture "D" 3).
  - vm_compute. right. right. left.
  - vm_compute. lia.
Defined.

Lemma clamp_score_lower (lo x : Q) :
  (0 <= lo <= 10)%Q → (lo <= x)%Q → (lo <= clamp_score x)%Q.
Proof.
  intros Hlo Hx. unfold clamp_score.
  destruct (Qlt_le_dec 10 x); destruct (Qlt_le_dec _ 0); lra.
Qed.

(** X6. The severity of a simulated failure is at least the number of
    impacted components, capped at 5, plus 3 when the failure is visible to
    users; it is never below 1 and never above 10. *)
Theorem severity_bounds arch failed fuel :
  failed ∈ Dict.keys (components arch) →
  enough_fuel arch ≤ fuel →
  ∃ r,
    simulate_failure fuel arch failed = Some (Returns r) ∧
    (1 <= severity_score r <= 10)%Q ∧
    (Qmin (inject_Z (Z.of_nat (length (impacted_components r)))) 5
     + (if user_visible_impact r then 3 else 0)
     <= severity_score r)%Q.
Proof.
  intros Hin Hfuel.
  destruct (simulate_failure_Returns arch failed fuel Hin Hfuel)
    as (fg & rg & impacted & score & _ & _ & Hcl & _ & Hsim & Hscore).
  eexists. split; [exact Hsim|]. simpl.
  set (uv := bool_decide _) in *.
  apply compute_severity_value in Hscore as [-> _].
  destruct (raw_score_half arch (elements impacted) uv) as [Hh _].
  destruct (clamp_score_half _ Hh) as [Hc Hb].
  rewrite (round2_half _ Hc).
  assert (Hlen : length (sorted (elements impacted))
                 = length (elements impacted)).
  { unfold sorted. by rewrite merge_sort_Permutation. }
  rewrite Hlen.
  assert (Hn : (1 <= inject_Z (Z.of_nat (length (elements impacted))))%Q).
  { assert (Hf : failed ∈ elements impacted) by (by apply elem_of_elements, Hcl).
    destruct (elements impacted); [by apply elem_of_nil in Hf|].
    unfold Qle, inject_Z. simpl. lia. }
  destruct (total_weight_half (components arch) (elements impacted)) as [_ Hw].
  set (n := inject_Z (Z.of_nat (length (elements impacted)))) in *.
  assert (Hmin : (1 <= Qmin n 5 <= 5)%Q).
  { split; [apply Q.min_glb; lra|apply Q.le_min_r]. }
  assert (Hraw : (Qmin n 5 + (if uv then 3 else 0)
                  <= raw_score arch (elements impacted) uv)%Q).
  { unfold raw_score. fold n.
    assert (Qmin (n * 1) 5 == Qmin n 5)%Q as ->.
    { destruct (Qlt_le_dec n 5).
      - rewrite !Q.min_l; lra.
      - rewrite !Q.min_r; lra. }
    lra. }
  split.
  - split; [|tauto]. apply clamp_score_lower; [lra|]. destruct uv; lra.
  - apply clamp_score_lower; [destruct uv; lra|exact Hraw].
Qed.

Lemma severity_bounds_witness :
  ∃ r,
    simulate_failure 3 worked_architecture "D" = Some (Returns r) ∧
    (1 <= severity_score r <= 10)%Q ∧
    (Qmin (inject_Z (Z.of_nat (length (impacted_components r)))) 5
     + (if user_visible_impact r then 3 else 0)
     <= severity_score r)%Q.
Proof.
  apply (severity_bounds worked_architecture "D" 3).
  - vm_compute. right. right. left.
  - vm_compute. lia.
Defined.

(** ** The forward graph *)

Lemma dict_keys_set_in {V} (d : Dict.t V) k v :
  k ∈ Dict.keys d → Dict.keys (Dict.set d k v) = Dict.keys d.
Proof.
  unfold Dict.keys. induction d as [|[k0 v0] d IH]; intros Hin.
  - by apply elem_of_nil in Hin.
  - cbn [Dict.set]. destruct (decide (k0 = k)) as [->|Hne]; [done|].
    rewrite !fmap_cons, IH; [done|].
    apply elem_of_cons in Hin as [?|?]; [simpl in *; congruence|done].
Qed.

Lemma dict_keys_set_out {V} (d : Dict.t V) k v :
  k ∉ Dict.keys d → Dict.keys (Dict.set d k v) = Dict.keys d ++ [k].
Proof.
  unfold Dict.keys. induction d as [|[k0 v0] d IH]; intros Hout; [done|].
  cbn [Dict.set]. apply not_elem_of_cons in Hout as [Hne Hout].
  destruct (decide (k0 = k)) as [->|_]; [done|].
  by rewrite !fmap_cons, IH.
Qed.

Lemma dict_get_elem {V} (d : Dict.t V) k v :
  NoDup (Dict.keys d) → (k, v) ∈ d → Dict.get d k = Some v.
Proof.
  unfold Dict.keys. induction d as [|[k0 v0] d IH]; simpl.
  - by intros _ ?%elem_of_nil.
  - intros [Hfresh Hnd]%NoDup_cons [[= -> ->]|Hin]%elem_of_cons.
    + by rewrite decide_True.
    + rewrite decide_False; [by apply IH|].
      intros ->. apply Hfresh. by eapply dict_item_key.
Qed.

Lemma add_dependency_forward name dep fg rg fg' rg' :
  add_dependency name dep (fg, rg) = Returns (fg', rg') →
  ∃ l, Dict.get fg name = Some l ∧ fg' = Dict.set fg name (l ++ [dep]).
Proof.
  unfold add_dependency, Dict.append_at, Dict.getitem.
  destruct (Dict.get fg name) as [l|]; [|done]. simpl.
  destruct (Dict.get _ dep); [|done]. simpl.
  intros [= <- _]. by exists l.
Qed.

Lemma add_dependencies_forward name deps fg rg fg' rg' l0 :
  for_each (add_dependency name) deps (fg, rg) = Returns (fg', rg') →
  Dict.get fg name = Some l0 →
  Dict.get fg' name = Some (l0 ++ deps) ∧
  (∀ k, k ≠ name → Dict.get fg' k = Dict.get fg k) ∧
  Dict.keys fg' = Dict.keys fg.
Proof.
  revert fg rg l0. induction deps as [|dep deps IH]; intros fg rg l0;
    cbn [for_each].
  - intros [= <- <-] Hl0. by rewrite app_nil_r.
  - destruct (add_dependency name dep (fg, rg)) as [[fg1 rg1]|e] eqn:Hstep;
      [|done].
    simpl. intros Hrest Hl0.
    apply add_dependency_forward in Hstep as (l & Hl & ->).
    rewrite Hl0 in Hl. injection Hl as <-.
    destruct (IH _ _ (l0 ++ [dep]) Hrest) as (Hget & Hother & Hkeys).
    { rewrite dict_get_set. by rewrite decide_True. }
    split_and!.
    + by rewrite Hget, <- app_assoc.
    + intros k Hk. rewrite Hother, dict_get_set; [|done].
      by rewrite decide_False.
    + rewrite Hkeys, dict_keys_set_in; [done|].
      apply dict_in_keys. by rewrite Hl0.
Qed.

Lemma add_components_forward (items : list (string * Component))
    fg rg fg' rg' :
  for_each add_component items (fg, rg) = Returns (fg', rg') →
  NoDup (items.*1) →
  (∀ k, k ∈ items.*1 → k ∉ Dict.keys fg) →
  Dict.keys fg' = Dict.keys fg ++ items.*1 ∧
  (∀ name comp, (name, comp) ∈ items →
                Dict.get fg' name = Some (depends_on comp)) ∧
  (∀ k, k ∉ items.*1 → Dict.get fg' k = Dict.get fg k).
Proof.
  revert fg rg. induction items as [|[name comp] items IH]; intros fg rg;
    cbn [for_each].
  - intros [= <- <-] _ _. simpl. rewrite app_nil_r. split_and!; try done.
    by intros ?? ?%elem_of_nil.
  - change (add_component (name, comp) (fg, rg))
      with (for_each (add_dependency name) (depends_on comp)
                     (Dict.set fg name [], rg)).
    destruct (for_each (add_dependency name) _ _) as [[fg1 rg1]|e] eqn:Hstep;
      [|done].
    simpl. intros Hrest [Hfresh Hnd]%NoDup_cons Hnew.
    destruct (add_dependencies_forward _ _ _ _ _ _ [] Hstep)
      as (Hget1 & Hother1 & Hkeys1).
    { rewrite dict_get_set. by rewrite decide_True. }
    assert (Hk1 : Dict.keys fg1 = Dict.keys fg ++ [name]).
    { rewrite Hkeys1, dict_keys_set_out; [done|]. apply Hnew. left. }
    destruct (IH fg1 rg1 Hrest Hnd) as (Hkeys & Hget & Hother).
    { intros k Hk. rewrite Hk1. intros [?|Heq]%elem_of_app.
      - eapply Hnew; [right; exact Hk|done].
      - apply list_elem_of_singleton in Heq as ->. done. }
    split_and!.
    + by rewrite Hkeys, Hk1, <- app_assoc.
    + intros n c [[= -> ->]|Hin]%elem_of_cons; [|by apply Hget].
      by rewrite Hother, Hget1.
    + intros k Hk. apply not_elem_of_cons in Hk as [Hne Hk].
      rewrite Hother, Hother1, dict_get_set; [|done|done].
      by rewrite decide_False.
Qed.

Lemma ensure_nodes_forward names fg rg :
  (∀ k, k ∈ names → k ∈ Dict.keys fg) →
  (foldl (λ gs name, ensure_node name gs) (fg, rg) names).1 = fg.
Proof.
  revert rg. induction names as [|name names IH]; intros rg Hin; simpl; [done|].
  unfold Dict.setdefault at 1.
  rewrite (proj2 (dict_contains fg name)); [|apply Hin; left].
  apply IH. intros k Hk. apply Hin. by right.
Qed.

(** X7. For an architecture whose keys are distinct, as the keys of a [dict]
    are, the forward graph has the keys of [arch.components] in their order,
    holds under each key the [depends_on] list of its component, and mirrors
    the reverse graph: [y] is listed under [x] in the reverse graph exactly
    when [x] is listed under [y] in the forward graph. *)
Theorem forward_graph_lists_dependencies (arch : Architecture) :
  NoDup (Dict.keys (components arch)) →
  ∃ forward_graph reverse_graph,
    build_dependency_graphs arch = Returns (forward_graph, reverse_graph) ∧
    Dict.keys forward_graph = Dict.keys (components arch) ∧
    (∀ name comp, (name, comp) ∈ Dict.items (components arch) →
       Dict.get forward_graph name = Some (depends_on comp)) ∧
    (∀ x y, y ∈ neighbours reverse_graph x ↔ x ∈ neighbours forward_graph y).
Proof.
  intros Hnd.
  destruct (build_dependency_graphs_spec arch) as (fg & rg & Hb & _ & _ & Hnb).
  exists fg, rg. split; [exact Hb|].
  unfold build_dependency_graphs in Hb.
  destruct (for_each add_component _ _) as [[fg1 rg1]|e] eqn:Hloop; [|done].
  simpl in Hb.
  destruct (add_components_forward _ _ _ _ _ Hloop Hnd)
    as (Hkeys & Hget & _).
  { intros k _ ?%elem_of_nil. done. }
  change (Dict.keys fg1 = Dict.keys (components arch)) in Hkeys.
  assert (Hfg : fg = fg1).
  { injection Hb as Hb.
    pose proof (ensure_nodes_forward (Dict.keys (components arch)) fg1 rg1) as He.
    change fg with (fg, rg).1. rewrite <- Hb. apply He.
    intros k Hk. by rewrite Hkeys. }
  subst fg1. split_and!; try done.
  intros x y. rewrite Hnb. unfold neighbours. split.
  - intros (comp & Hin & Hdep). by rewrite (Hget y comp Hin).
  - destruct (Dict.get fg y) as [l|] eqn:Hl; simpl; [|by intros ?%elem_of_nil].
    intros Hx. assert (Hy : y ∈ Dict.keys (components arch)).
    { rewrite <- Hkeys. apply dict_in_keys. by rewrite Hl. }
    apply dict_in_keys in Hy as [comp Hc].
    assert (Hin : (y, comp) ∈ Dict.items (components arch)).
    { unfold Dict.items. clear -Hc.
      induction (components arch) as [|[k v] d IH]; simpl in *; [done|].
      destruct (decide (k = y)) as [->|]; [injection Hc as ->; left|].
      right. by apply IH. }
    exists comp. split; [done|]. rewrite (Hget y comp Hin) in Hl.
    by injection Hl as <-.
Qed.

Lemma forward_graph_lists_dependencies_witness :
  ∃ forward_graph reverse_graph,
    build_dependency_graphs worked_architecture
    = Returns (forward_graph, reverse_graph) ∧
    Dict.keys forward_graph = ["G"; "S"; "D"] ∧
    Dict.get forward_graph "S" = Some ["D"].
Proof.
  destruct (forward_graph_lists_dependencies worked_architecture)
    as (fg & rg & Hb & Hkeys & Hget & _).
  { by vm_compute; repeat (apply NoDup_cons; split);
      try apply NoDup_nil_2; rewrite ?elem_of_cons, ?elem_of_nil;
      intuition discriminate. }
  exists fg, rg. split; [exact Hb|]. split; [exact Hkeys|].
  apply (Hget "S" worked_S). right. left.
Defined.

(** ** [Architecture.from_dict] *)

Module architecture_input.
Import architecture_model.

(** One entry of the [components] list of a parsed document whose values have
    the declared types; [None] stands for a key the entry does not have (for
    [depends_on], also for a key without a value, which [or []] replaces). *)
Record ComponentData : Type := mkComponentData {
  data_name : option string;
  data_type : option string;
  data_public : option bool;
  data_depends_on : option (list string);
  data_criticality : option string
}.

(** The parsed document. *)
Record ArchitectureData : Type := mkArchitectureData {
  data_system_name : option string;
  data_components : option (list ComponentData)
}.

(** [Component(name=name, ctype=..., ...)] with the defaults of [from_dict]. *)
Definition component_of (comp : ComponentData) (name : string) : Component :=
  {| name := name;
     ctype := default "service" (data_type comp);
     public := default false (data_public comp);
     depends_on := default [] (data_depends_on comp);
     criticality := default "medium" (data_criticality comp) |}.

(** The body of [for comp in components_data]. *)
Definition add_entry (comp : ComponentData) (components : Dict.t Component)
  : outcome (Dict.t Component) :=
  name ← match data_name comp with
          | Some name => Returns name
          | None => Raises (KeyError "name")
          end ;
  Returns (Dict.set components name (component_of comp name)).

Definition from_dict (data : ArchitectureData) : outcome Architecture :=
  let system_name := default "Unnamed System" (data_system_name data) in
  let components_data := default [] (data_components data) in
  components ← for_each add_entry components_data [] ;
  Returns {| system_name := system_name; components := components |}.

End architecture_input.

Import architecture_input.

Lemma for_each_app {A S} (body : A → S → outcome S) l1 l2 s :
  for_each body (l1 ++ l2) s = s' ← for_each body l1 s ; for_each body l2 s'.
Proof.
  revert s. induction l1 as [|x l1 IH]; intros s; simpl; [done|].
  unfold mbind, outcome_bind. destruct (body x s); [apply IH|done].
Qed.

Lemma dict_set_NoDup {V} (d : Dict.t V) k v :
  NoDup (Dict.keys d) → NoDup (Dict.keys (Dict.set d k v)).
Proof.
  intros Hnd. destruct (decide (k ∈ Dict.keys d)) as [Hin|Hout].
  - by rewrite dict_keys_set_in.
  - rewrite dict_keys_set_out; [|done]. apply NoDup_app. split_and!; [done| |].
    + intros k' Hk' ->%list_elem_of_singleton. done.
    + apply NoDup_singleton.
Qed.

Lemma dict_set_elem {V} (d : Dict.t V) k v k' v' :
  (k', v') ∈ Dict.set d k v → (k', v') = (k, v) ∨ (k', v') ∈ d.
Proof.
  induction d as [|[k0 v0] d IH]; cbn [Dict.set].
  - intros ->%list_elem_of_singleton. by left.
  - destruct (decide (k0 = k)) as [->|Hne].
    + intros [->|Hin]%elem_of_cons; [by left|]. right. by right.
    + intros [->|Hin]%elem_of_cons; [right; left|].
      destruct (IH Hin) as [?|?]; [by left|]. right. by right.
Qed.

Lemma add_entry_inv comp d d' :
  add_entry comp d = Returns d' →
  ∃ k, data_name comp = Some k ∧ d' = Dict.set d k (component_of comp k).
Proof.
  unfold add_entry. destruct (data_name comp) as [k|]; [|done].
  simpl. intros [= <-]. by exists k.
Qed.

Lemma add_entry_Some comp d k :
  data_name comp = Some k →
  add_entry comp d = Returns (Dict.set d k (component_of comp k)).
Proof. intros Hk. unfold add_entry. by rewrite Hk. Qed.

Lemma add_entry_None comp d :
  data_name comp = None → add_entry comp d = Raises (KeyError "name").
Proof. intros Hk. unfold add_entry. by rewrite Hk. Qed.

(** The entries that were added keep the dictionary well formed. *)
Lemma add_entries_inv comps d d' :
  for_each add_entry comps d = Returns d' →
  (NoDup (Dict.keys d) → NoDup (Dict.keys d')) ∧
  ((∀ k c, (k, c) ∈ d → name c = k) → ∀ k c, (k, c) ∈ d' → name c = k) ∧
  (∀ k, k ∈ Dict.keys d' ↔
        k ∈ Dict.keys d ∨ ∃ c, c ∈ comps ∧ data_name c = Some k) ∧
  (∀ k, (∀ c, c ∈ comps → data_name c ≠ Some k) →
        Dict.get d' k = Dict.get d k).
Proof.
  revert d. induction comps as [|comp comps IH]; intros d; cbn [for_each].
  - intros [= <-]. split_and!; try done.
    + intros k. split; [by left|]. intros [?|(c & ?%elem_of_nil & _)]; done.
  - destruct (add_entry comp d) as [d1|e] eqn:Hstep; [|done]. simpl.
    intros Hrest. apply add_entry_inv in Hstep as (k0 & Hk0 & ->).
    destruct (IH _ Hrest) as (Hnd & Hname & Hkeys & Hget). split_and!.
    + intros ?. by apply Hnd, dict_set_NoDup.
    + intros Hd. apply Hname. intros k c [[= -> ->]|?]%dict_set_elem; [done|].
      by apply Hd.
    + intros k. rewrite Hkeys, dict_keys_set. split.
      * intros [[->|?]|(c & ? & ?)]; [right|by left|right].
        -- exists comp. split; [left|done].
        -- exists c. split; [by right|done].
      * intros [?|(c & [->|?]%elem_of_cons & Hc)]; [left; by right| |].
        -- left. left. congruence.
        -- right. by exists c.
    + intros k Hk. rewrite Hget.
      * rewrite dict_get_set. rewrite decide_False; [done|].
        intros ->. by apply (Hk comp); [left|].
      * intros c Hc. apply Hk. by right.
Qed.

(** X8. [from_dict] raises [KeyError('name')] exactly when some entry of the
    component list has no name, raises nothing else, and returns an
    architecture when every entry has one. *)
Theorem from_dict_missing_name (data : ArchitectureData) :
  let entries := default [] (data_components data) in
  (from_dict data = Raises (KeyError "name") ↔
   ∃ comp, comp ∈ entries ∧ data_name comp = None) ∧
  ((∃ arch, from_dict data = Returns arch) ↔
   ∀ comp, comp ∈ entries → is_Some (data_name comp)) ∧
  (∀ e, from_dict data = Raises e → e = KeyError "name").
Proof.
  intros entries. unfold from_dict. fold entries.
  assert (Hloop : ∀ d,
             (∃ d', for_each add_entry entries d = Returns d'
                    ∧ ∀ comp, comp ∈ entries → is_Some (data_name comp))
             ∨ (for_each add_entry entries d = Raises (KeyError "name")
                ∧ ∃ comp, comp ∈ entries ∧ data_name comp = None)).
  { induction entries as [|comp comps IH]; intros d; cbn [for_each].
    - left. exists d. split; [done|]. by intros ? ?%elem_of_nil.
    - destruct (data_name comp) as [k|] eqn:Hk.
      + rewrite (add_entry_Some comp d k Hk).
        destruct (IH (Dict.set d k (component_of comp k)))
          as [(d' & Hd' & Hall)|[Hd' (c & Hc & Hn)]].
        * left. exists d'. split; [exact Hd'|].
          intros c [->|?]%elem_of_cons; [by rewrite Hk|by apply Hall].
        * right. split; [exact Hd'|]. exists c. split; [by right|done].
      + rewrite (add_entry_None comp d Hk).
        right. split; [done|]. exists comp. split; [left|done]. }
  destruct (Hloop []) as [(d' & -> & Hall)|[-> (c & Hc & Hn)]]; simpl.
  - split_and!; [split; [done|]| |done].
    + intros (c & Hc & Hn). destruct (Hall c Hc) as [? ?]. congruence.
    + split; [done|]. eauto.
  - split_and!.
    + split; [|done]. intros _. by exists c.
    + split; [by intros [? ?]|]. intros Hall.
      destruct (Hall c Hc) as [? ?]. congruence.
    + by intros e [= <-].
Qed.

(** A document with two entries of the same name and one without a type. *)
Definition repeated_document : ArchitectureData :=
  mkArchitectureData (Some "shop")
    (Some [mkComponentData (Some "db") (Some "database") (Some true) None
                           (Some "high");
           mkComponentData (Some "web") None None (Some ["db"]) None;
           mkComponentData (Some "db") (Some "queue") None None None]).

Lemma from_dict_missing_name_witness :
  from_dict (mkArchitectureData None
               (Some [mkComponentData None (Some "service") None None None]))
  = Raises (KeyError "name")
  ∧ ∃ arch, from_dict repeated_document = Returns arch.
Proof.
  split.
  - apply from_dict_missing_name. eexists. split; [left|done].
  - apply from_dict_missing_name. simpl.
    intros comp Hin.
    repeat (apply elem_of_cons in Hin as [->|Hin]; [by eexists|]).
    by apply elem_of_nil in Hin.
Defined.

(** X9. An architecture that [from_dict] returns has distinct keys, stores
    every component under its own name, has the names of the document as keys,
    takes the system name of the document or ["Unnamed System"], and holds
    under a name the last entry of that name, with the defaults for the
    fields the entry leaves out. *)
Theorem from_dict_well_formed (data : ArchitectureData) (arch : Architecture) :
  from_dict data = Returns arch →
  let entries := default [] (data_components data) in
  architecture_model.system_name arch
  = default "Unnamed System" (data_system_name data) ∧
  NoDup (Dict.keys (components arch)) ∧
  (∀ k comp, (k, comp) ∈ Dict.items (components arch) → name comp = k) ∧
  (∀ k, k ∈ Dict.keys (components arch) ↔
        ∃ comp, comp ∈ entries ∧ data_name comp = Some k) ∧
  (∀ before comp after k,
     entries = before ++ comp :: after →
     data_name comp = Some k →
     (∀ later, later ∈ after → data_name later ≠ Some k) →
     Dict.get (components arch) k = Some (component_of comp k)).
Proof.
  intros Hret entries. unfold from_dict in Hret. fold entries in Hret.
  destruct (for_each add_entry entries []) as [d|e] eqn:Hloop; [|done].
  simpl in Hret. injection Hret as <-. simpl.
  destruct (add_entries_inv _ _ _ Hloop) as (Hnd & Hname & Hkeys & _).
  split_and!.
  - done.
  - apply Hnd, NoDup_nil_2.
  - apply Hname. by intros ?? ?%elem_of_nil.
  - intros k. rewrite Hkeys. split; [|by right].
    intros [?%elem_of_nil|?]; done.
  - intros before comp after k Hsplit Hk Hlast.
    rewrite Hsplit, for_each_app in Hloop.
    destruct (for_each add_entry before []) as [d1|e] eqn:H1; [|done].
    simpl in Hloop. cbn [for_each] in Hloop.
    destruct (add_entry comp d1) as [d2|e] eqn:H2; [|done]. simpl in Hloop.
    apply add_entry_inv in H2 as (k' & Hk' & ->).
    rewrite Hk in Hk'. injection Hk' as <-.
    destruct (add_entries_inv _ _ _ Hloop) as (_ & _ & _ & Hget).
    rewrite Hget; [|done]. rewrite dict_get_set. by rewrite decide_True.
Qed.

Lemma from_dict_well_formed_witness :
  ∃ arch,
    from_dict repeated_document = Returns arch ∧
    Dict.keys (components arch) = ["db"; "web"] ∧
    Dict.get (components arch) "db"
    = Some (mkComponent "db" "queue" false [] "medium").
Proof.
  eexists. split; [by vm_compute|].
  edestruct (from_dict_well_formed repeated_document) as (_ & _ & _ & _ & Hlast);
    [by vm_compute|].
  split; [reflexivity|].
  apply (Hlast [mkComponentData (Some "db") (Some "database") (Some true) None
                                (Some "high");
                mkComponentData (Some "web") None None (Some ["db"]) None]
               (mkComponentData (Some "db") (Some "queue") None None None) []);
    [reflexivity|reflexivity|]. by intros ? ?%elem_of_nil.
Defined.

(** ** Security risks of a parsed architecture *)

Lemma analyze_security_distinct (arch : Architecture) :
  NoDup (name <$> Dict.values (components arch)) →
  analyze_security arch = Dict.values (components arch) ≫= component_risks.
Proof.
  intros Hnames. unfold analyze_security. rewrite analyze_components_report.
  destruct (report_all (Dict.values (components arch) ≫= component_risks)
              ([], ∅)) as (new & Heq & _ & _ & _ & Hfull).
  { split; simpl; [apply NoDup_nil_2|]. intros k. set_solver. }
  simpl in Heq. rewrite Heq. apply Hfull; [by apply risks_NoDup|].
  intros r _. simpl. set_solver.
Qed.

Lemma own_names_distinct (d : Dict.t Component) :
  NoDup (Dict.keys d) → (∀ k c, (k, c) ∈ d → name c = k) →
  name <$> Dict.values d = Dict.keys d.
Proof.
  intros _ Hown. unfold Dict.values, Dict.keys.
  induction d as [|[k c] d IH]; [done|]. csimpl. f_equal.
  - apply Hown. left.
  - apply IH. intros k' c' Hin. apply Hown. by right.
Qed.

Lemma component_risks_filter (comps : list Component) (k : string) :
  filter (λ r, security_analysis.component r = k) (comps ≫= component_risks)
  = filter (λ c, name c = k) comps ≫= component_risks.
Proof.
  induction comps as [|c comps IH]; [done|].
  rewrite bind_cons, filter_app, IH, filter_cons.
  destruct (decide (name c = k)) as [Hk|Hk].
  - rewrite bind_cons. f_equal.
    assert (Hall : ∀ r, r ∈ component_risks c →
                        security_analysis.component r = k).
    { intros r [-> _]%component_risks_inv. done. }
    induction (component_risks c) as [|r l IHl]; [done|].
    rewrite filter_cons_True; [|apply Hall; left].
    f_equal. apply IHl. intros r' Hr'. apply Hall. by right.
  - rewrite <- (app_nil_l (filter _ comps ≫= _)). f_equal.
    apply elem_of_nil_inv. intros r [Hr Hin]%list_elem_of_filter.
    apply component_risks_inv in Hin as [Hc _]. congruence.
Qed.

Lemma filter_own_name (d : Dict.t Component) k comp :
  NoDup (Dict.keys d) → (∀ k c, (k, c) ∈ d → name c = k) →
  (k, comp) ∈ d →
  filter (λ c, name c = k) (Dict.values d) = [comp].
Proof.
  unfold Dict.keys, Dict.values. induction d as [|[k0 c0] d IH]; csimpl.
  - by intros _ _ ?%elem_of_nil.
  - intros [Hfresh Hnd]%NoDup_cons Hown Hin.
    assert (Hc0 : name c0 = k0) by (apply Hown; left).
    assert (Hown' : ∀ k c, (k, c) ∈ d → name c = k).
    { intros ?? ?. apply Hown. by right. }
    apply elem_of_cons in Hin as [[= -> ->]|Hin].
    + rewrite filter_cons_True; [|done]. f_equal.
      apply elem_of_nil_inv. intros c [Hc Hin]%list_elem_of_filter.
      apply list_elem_of_fmap in Hin as ([k' c'] & -> & Hin). simpl in *.
      apply Hfresh. apply list_elem_of_fmap. exists (k', c'). split; [|done].
      simpl. by rewrite <- (Hown' k' c' Hin).
    + rewrite filter_cons_False; [by apply IH|].
      intros Hk. apply Hfresh. apply list_elem_of_fmap.
      exists (k, comp). split; [simpl; congruence|done].
Qed.

(** X10. On an architecture that [from_dict] returns, the seen-set of
    [analyze_security] never suppresses a risk: the reported triples are
    those of the rule table, component after component, and the risks
    reported for a component are exactly the ones the table yields for it. *)
Theorem parsed_architecture_risks (data : ArchitectureData)
    (arch : Architecture) :
  from_dict data = Returns arch →
  triple <$> analyze_security arch
  = Dict.values (components arch) ≫= table_triples ∧
  (∀ k comp, (k, comp) ∈ Dict.items (components arch) →
     triple <$> filter (λ r, security_analysis.component r = k)
                       (analyze_security arch)
     = table_triples comp).
Proof.
  intros Hret.
  assert (Hwf : NoDup (Dict.keys (components arch)) ∧
                ∀ k c, (k, c) ∈ components arch → name c = k).
  { unfold from_dict in Hret.
    destruct (for_each add_entry _ []) as [d|e] eqn:Hloop; [|done].
    simpl in Hret. injection Hret as <-. simpl.
    destruct (add_entries_inv _ _ _ Hloop) as (Hnd & Hname & _).
    split; [apply Hnd, NoDup_nil_2|]. apply Hname. by intros ?? ?%elem_of_nil. }
  destruct Hwf as [Hnd Hown].
  rewrite analyze_security_distinct;
    [|by rewrite own_names_distinct]. split.
  - apply risks_triples.
  - intros k comp Hin. unfold Dict.items in Hin.
    rewrite component_risks_filter, (filter_own_name _ k comp); try done.
    rewrite bind_cons. csimpl. rewrite app_nil_r.
    apply component_risks_triples.
Qed.

(** A document with a public web front and a public database. *)
Definition exposed_document : ArchitectureData :=
  mkArchitectureData (Some "exposed")
    (Some [mkComponentData (Some "web") None (Some true) (Some ["db"]) None;
           mkComponentData (Some "db") (Some "database") (Some true) None
                           (Some "high")]).

Lemma parsed_architecture_risks_witness :
  ∃ arch,
    from_dict exposed_document = Returns arch ∧
    triple <$> analyze_security arch
    = [("web", "Denial-of-Service", "High"); ("db", "Data Exposure", "High")] ∧
    triple <$> filter (λ r, security_analysis.component r = "db")
                      (analyze_security arch)
    = [("db", "Data Exposure", "High")].
Proof.
  eexists. split; [by vm_compute|].
  edestruct (parsed_architecture_risks exposed_document) as [Hall Hone];
    [by vm_compute|].
  split; [by rewrite Hall|].
  rewrite (Hone "db" (mkComponent "db" "database" true [] "high"));
    [by vm_compute|]. right. left.
Defined.

(** ** The rule-based remediation passes *)

Lemma scenario_based_inv arch sc s :
  s ∈ remediation_agent.scenario_based arch sc →
  ∃ comp,
    (8 <= orchestrator.severity sc)%Q ∧
    Dict.get (components arch) (orchestrator.failed_component sc) = Some comp ∧
    remediation_agent.scenario_based arch sc = [s] ∧
    remediation_agent.category s = PStr "resilience" ∧
    remediation_agent.target s = PStr (orchestrator.failed_component sc) ∧
    remediation_agent.title s ≠ PStr "Improve overall fault tolerance" ∧
    (remediation_agent.priority s = PStr "high" ∧
     (ctype comp = "database" ∨ ctype comp = "gateway"
      ∨ ctype comp = "external_api")
     ∨ remediation_agent.priority s = PStr "medium" ∧
       ctype comp ≠ "database" ∧ ctype comp ≠ "gateway"
       ∧ ctype comp ≠ "external_api").
Proof.
  unfold remediation_agent.scenario_based.
  destruct (Qlt_le_dec _ 8) as [?|Hsev]; [by intros ?%elem_of_nil|].
  destruct (Dict.get _ _) as [comp|]; [|by intros ?%elem_of_nil].
  intros Hs. exists comp. split; [done|]. split; [done|].
  repeat case_decide; apply list_elem_of_singleton in Hs as ->; simpl;
    (split_and!; [done|done|done|by intros [= ?]|]); [left|left|left|right];
    split; auto.
Qed.

Lemma scenario_based_length arch sc :
  length (remediation_agent.scenario_based arch sc)
  = if decide (Qle_bool 8 (orchestrator.severity sc) = true
               ∧ is_Some (Dict.get (components arch)
                                   (orchestrator.failed_component sc)))
    then 1 else 0.
Proof.
  destruct (decide (_ ∧ _)) as [[Hb [comp Hs]]|Hn];
    unfold remediation_agent.scenario_based.
  - apply Qle_bool_iff in Hb.
    destruct (Qlt_le_dec _ 8) as [Hlt|Hle]; [lra|].
    rewrite Hs. by repeat case_decide.
  - destruct (Qlt_le_dec _ 8) as [Hlt|Hle]; [done|].
    destruct (Dict.get _ _) as [comp|]; [|done].
    exfalso. apply Hn. split; [by apply Qle_bool_iff|eauto].
Qed.

(** X11. Among the rule-based suggestions, the one entitled "Improve overall
    fault tolerance" is present exactly when the resilience score of the
    report is at most 4.0; it is then the first suggestion, a system-wide
    resilience suggestion of high priority, and no other suggestion bears
    that title. *)
Theorem system_level_suggestion_iff arch report :
  ((∃ s, s ∈ remediation_agent.rule_based arch report ∧
         remediation_agent.title s = PStr "Improve overall fault tolerance")
   ↔ (overall_resilience_score report <= 4)%Q) ∧
  ((overall_resilience_score report <= 4)%Q →
   ∃ s rest,
     remediation_agent.rule_based arch report = s :: rest ∧
     remediation_agent.category s = PStr "resilience" ∧
     remediation_agent.target s = PStr "system" ∧
     remediation_agent.priority s = PStr "high" ∧
     remediation_agent.title s = PStr "Improve overall fault tolerance" ∧
     ∀ s', s' ∈ rest →
       remediation_agent.title s' ≠ PStr "Improve overall fault tolerance").
Proof.
  assert (Hrest : ∀ s',
    s' ∈ (scenarios report ≫= remediation_agent.scenario_based arch)
         ++ (remediation_agent.risk_driven <$> security_risks report) →
    remediation_agent.title s' ≠ PStr "Improve overall fault tolerance").
  { intros s' [Hs|Hs]%elem_of_app.
    - apply list_elem_of_bind in Hs as (sc & Hs & _).
      by apply scenario_based_inv in Hs as (comp & _ & _ & _ & _ & _ & Ht & _).
    - apply list_elem_of_fmap in Hs as (risk & -> & _). by intros [= ?]. }
  unfold remediation_agent.rule_based, remediation_agent.system_level in *.
  destruct (Qle_bool (overall_resilience_score report) 4) eqn:Hb.
  - apply Qle_bool_iff in Hb. split.
    + split; [done|]. intros _. eexists. split; [left|done].
    + intros _. eexists _, _. split; [reflexivity|]. by split_and!.
  - assert (Hgt : ¬ (overall_resilience_score report <= 4)%Q).
    { intros H%Qle_bool_iff. congruence. }
    split; [|done]. split; [|done].
    intros (s & Hs & Ht). by apply Hrest in Hs.
Qed.

Lemma system_level_suggestion_iff_witness :
  ∃ s rest,
    remediation_agent.rule_based worked_architecture
      (mkSystemReport "worked" [] [] 3 9) = s :: rest ∧
    remediation_agent.target s = PStr "system".
Proof.
  destruct (system_level_suggestion_iff worked_architecture
              (mkSystemReport "worked" [] [] 3 9)) as [_ Hsys].
  destruct Hsys as (s & rest & Heq & _ & Ht & _); [by vm_compute|].
  by exists s, rest.
Defined.

(** X12. Every rule-based suggestion is a resilience or a security
    suggestion of high or medium priority. A security suggestion comes from a
    risk of the report. A resilience suggestion other than the system-wide
    one targets the failed component of a scenario of severity 8.0 or more
    that is a component of the architecture, and its priority is high exactly
    when that component is a database, a gateway or an external API. *)
Theorem rule_based_shape arch report s :
  s ∈ remediation_agent.rule_based arch report →
  (remediation_agent.priority s = PStr "high"
   ∨ remediation_agent.priority s = PStr "medium") ∧
  (remediation_agent.category s = PStr "security" ∧
   (∃ risk, risk ∈ security_risks report ∧
            s = remediation_agent.risk_driven risk)
   ∨ remediation_agent.category s = PStr "resilience" ∧
     (remediation_agent.title s = PStr "Improve overall fault tolerance" ∧
      remediation_agent.target s = PStr "system"
      ∨ ∃ sc comp,
          sc ∈ scenarios report ∧
          (8 <= orchestrator.severity sc)%Q ∧
          Dict.get (components arch) (orchestrator.failed_component sc)
          = Some comp ∧
          remediation_agent.target s
          = PStr (orchestrator.failed_component sc) ∧
          (remediation_agent.priority s = PStr "high" ↔
           ctype comp = "database" ∨ ctype comp = "gateway"
           ∨ ctype comp = "external_api"))).
Proof.
  unfold remediation_agent.rule_based. rewrite !elem_of_app.
  intros [Hs|[Hs|Hs]].
  - unfold remediation_agent.system_level in Hs.
    destruct (Qle_bool _ 4); [|by apply elem_of_nil in Hs].
    apply list_elem_of_singleton in Hs as ->. simpl.
    split; [by left|]. right. split; [done|]. by left.
  - apply list_elem_of_bind in Hs as (sc & Hs & Hsc).
    apply scenario_based_inv in Hs
      as (comp & Hsev & Hget & _ & Hcat & Htarget & _ & Hprio).
    split; [destruct Hprio as [[? _]|[? _]]; auto|].
    right. split; [done|]. right. exists sc, comp. split_and!; try done.
    destruct Hprio as [[-> ?]|[-> (? & ? & ?)]]; split; try done.
    intros [?|[?|?]]; done.
  - apply list_elem_of_fmap in Hs as (risk & -> & Hrisk). simpl. split.
    + case_decide; auto.
    + left. split; [done|]. by exists risk.
Qed.

Lemma rule_based_shape_witness :
  remediation_agent.priority
    (remediation_agent.risk_driven (external_api_risk worked_D))
  = PStr "high"
  ∨ remediation_agent.priority
      (remediation_agent.risk_driven (external_api_risk worked_D))
    = PStr "medium".
Proof.
  apply (rule_based_shape worked_architecture
           (mkSystemReport "worked" [] [external_api_risk worked_D] 10 0)).
  vm_compute. left.
Defined.

(** X13. The rule-based passes give one suggestion per security risk, one
    per scenario of severity 8.0 or more whose failed component is in the
    architecture, none for any other scenario, and one more when the
    resilience score is at most 4.0. *)
Theorem rule_based_count arch report :
  length (remediation_agent.rule_based arch report)
  = (if Qle_bool (overall_resilience_score report) 4 then 1 else 0)
    + length (filter (λ sc,
                Qle_bool 8 (orchestrator.severity sc) = true
                ∧ is_Some (Dict.get (components arch)
                                    (orchestrator.failed_component sc)))
              (scenarios report))
    + length (security_risks report).
Proof.
  unfold remediation_agent.rule_based. rewrite !length_app, length_fmap.
  rewrite Nat.add_assoc. f_equal. f_equal.
  - unfold remediation_agent.system_level. by destruct (Qle_bool _ 4).
  - induction (scenarios report) as [|sc scs IH]; [done|].
    rewrite bind_cons, length_app, IH, scenario_based_length, filter_cons.
    by case_decide.
Qed.

(** ** The pipeline of the orchestrator *)

Lemma sorted_idemp (l : list string) : sorted (sorted l) = sorted l.
Proof.
  apply (StronglySorted_unique String.le).
  - apply sorted_StronglySorted.
  - apply sorted_StronglySorted.
  - unfold sorted at 1. apply merge_sort_Permutation.
Qed.

(** The summary the failure simulation agent writes for one scenario. *)
Definition summary_of (fuel : nat) (arch : Architecture) (id : string)
    (sc : ScenarioSummary) : Prop :=
  ∃ r, simulate_failure fuel arch id = Some (Returns r) ∧
       sc = {| scenario_name := id +:+ " FAILURE";
               orchestrator.failed_component := id;
               severity := severity_score r;
               orchestrator.user_visible_impact := user_visible_impact r;
               orchestrator.impacted_components := impacted_components r |}.

Lemma summarize_all_spec fuel arch ids acc :
  enough_fuel arch ≤ fuel →
  (∀ x, x ∈ ids → x ∈ Dict.keys (components arch)) →
  ∃ new,
    summarize_all fuel arch ids acc = Some (Returns (acc ++ new)) ∧
    Forall2 (summary_of fuel arch) ids new.
Proof.
  intros Hfuel. revert acc. induction ids as [|x ids IH]; intros acc Hids;
    cbn [summarize_all].
  - exists []. rewrite app_nil_r. split; [done|constructor].
  - destruct (simulate_failure_Returns arch x fuel) as
      (fg & rg & impacted & score & _ & _ & _ & _ & Hsim & _);
      [apply Hids; left|exact Hfuel|].
    unfold summarize at 1. rewrite Hsim. simpl.
    edestruct IH as (new & -> & Hnew); [intros y Hy; apply Hids; by right|].
    eexists (_ :: new). rewrite <- app_assoc. split; [reflexivity|].
    constructor; [|exact Hnew]. eexists. split; [exact Hsim|].
    simpl. by rewrite sorted_idemp.
Qed.

(** The events the pipeline logs, in their order. *)
Definition pipeline_events (arch : Architecture)
    (scenarios : list ScenarioSummary)
    (risks : list security_analysis.SecurityRisk)
  : list agent_context.AgentEvent :=
  [ agent_context.mkAgentEvent "orchestrator_agent" "start"
      [("system_name", PStr (architecture_model.system_name arch))];
    agent_context.mkAgentEvent "failure_simulation_agent" "start"
      [("system_name", PStr (architecture_model.system_name arch))];
    agent_context.mkAgentEvent "failure_simulation_agent" "done"
      [("scenarios", len scenarios);
       ("failed_components",
        PList (PStr <$> generate_failure_scenarios arch))];
    agent_context.mkAgentEvent "security_analysis_agent" "start"
      [("system_name", PStr (architecture_model.system_name arch))];
    agent_context.mkAgentEvent "security_analysis_agent" "done"
      [("risk_count", len risks)];
    agent_context.mkAgentEvent "reporting_agent" "start"
      [("scenarios", len scenarios); ("risks", len risks)];
    agent_context.mkAgentEvent "reporting_agent" "done" [];
    agent_context.mkAgentEvent "orchestrator_agent" "done" [] ].

Lemma ReportingAgent_run_pair self_name arch scs risks context :
  ReportingAgent_run self_name arch scs risks context
  = let report := (ReportingAgent_run self_name arch scs risks None).1 in
    (report,
     (λ c,
        agent_context.log
          (agent_context.set_shared
             (agent_context.set_shared c "overall_resilience_score"
                (PFloat (overall_resilience_score report)))
             "worst_case_severity" (PFloat (worst_case_severity report)))
          self_name "done" [])
     <$> agent_context.log_if context self_name "start"
           [("scenarios", len scs); ("risks", len risks)]).
Proof.
  unfold ReportingAgent_run. by destruct (severity <$> scs), context.
Qed.

(** What [generate_system_report] returns on enough fuel: the report of the
    reporting agent over the summaries of the selected scenarios and the
    risks of [analyze_security], and the context with the events of the
    pipeline and the two scores. *)
Lemma generate_system_report_Returns arch fuel context :
  enough_fuel arch ≤ fuel →
  ∃ scs,
    Forall2 (summary_of fuel arch) (generate_failure_scenarios arch) scs ∧
    let report :=
      (ReportingAgent_run "reporting_agent" arch scs (analyze_security arch)
                          None).1 in
    generate_system_report fuel arch context
    = Some (Returns (report,
        (λ c, {| agent_context.run_id := agent_context.run_id c;
                 agent_context.shared_state :=
                   Dict.set
                     (Dict.set (agent_context.shared_state c)
                        "overall_resilience_score"
                        (PFloat (overall_resilience_score report)))
                     "worst_case_severity"
                     (PFloat (worst_case_severity report));
                 agent_context.events :=
                   agent_context.events c
                   ++ pipeline_events arch scs (analyze_security arch) |})
        <$> context)).
Proof.
  intros Hfuel.
  destruct (summarize_all_spec fuel arch (generate_failure_scenarios arch) []
              Hfuel (scenarios_are_components arch)) as (scs & Hsum & Hscs).
  exists scs. split; [exact Hscs|]. simpl in Hsum.
  unfold generate_system_report, OrchestratorAgent_run,
    FailureSimulationAgent_run.
  rewrite Hsum. cbn [mbind option_bind outcome_bind].
  unfold SecurityAnalysisAgent_run. rewrite ReportingAgent_run_pair.
  cbv zeta. destruct context as [c|]; [|reflexivity].
  simpl. unfold pipeline_events. do 4 f_equal.
  unfold agent_context.log, agent_context.set_shared. simpl.
  f_equal. by rewrite <- !app_assoc.
Qed.

Lemma ReportingAgent_fields self_name arch scs risks context :
  let report := (ReportingAgent_run self_name arch scs risks context).1 in
  orchestrator.system_name report = architecture_model.system_name arch ∧
  scenarios report = scs ∧ security_risks report = risks.
Proof. unfold ReportingAgent_run. by destruct (severity <$> scs). Qed.

Lemma summary_of_ids fuel arch ids scs :
  Forall2 (summary_of fuel arch) ids scs →
  orchestrator.failed_component <$> scs = ids.
Proof.
  induction 1 as [|id sc ids scs (r & _ & ->) _ IH]; [done|].
  csimpl. by rewrite IH.
Qed.

(** X14. On enough fuel [generate_system_report] returns a report for every
    architecture and raises nothing. The report bears the system name of the
    architecture, holds the risks of [analyze_security], and has one scenario
    per name that [generate_failure_scenarios] selects, in that order: the
    scenario is named after the failed component and carries the severity,
    the visibility flag and the impacted components that [simulate_failure]
    returns for it (sorting them once more changes nothing). *)
Theorem generate_system_report_structure arch fuel context :
  enough_fuel arch ≤ fuel →
  ∃ report context',
    generate_system_report fuel arch context
    = Some (Returns (report, context')) ∧
    orchestrator.system_name report = architecture_model.system_name arch ∧
    security_risks report = analyze_security arch ∧
    orchestrator.failed_component <$> scenarios report
    = generate_failure_scenarios arch ∧
    Forall (λ sc,
      ∃ r, simulate_failure fuel arch (orchestrator.failed_component sc)
           = Some (Returns r) ∧
           scenario_name sc
           = orchestrator.failed_component sc +:+ " FAILURE" ∧
           severity sc = severity_score r ∧
           orchestrator.user_visible_impact sc = user_visible_impact r ∧
           orchestrator.impacted_components sc = impacted_components r)
      (scenarios report).
Proof.
  intros Hfuel.
  destruct (generate_system_report_Returns arch fuel context Hfuel)
    as (scs & Hscs & Hrun).
  cbv zeta in Hrun. eexists _, _. split; [exact Hrun|].
  destruct (ReportingAgent_fields "reporting_agent" arch scs
              (analyze_security arch) None) as (Hname & Hsc & Hrisk).
  cbv zeta in Hname, Hsc, Hrisk. rewrite Hname, Hsc, Hrisk.
  split_and!; try done.
  - by eapply summary_of_ids.
  - clear Hrun Hname Hsc Hrisk.
    induction Hscs as [|id sc ids scs (r & Hr & ->) _ IH]; constructor;
      [|exact IH].
    exists r. by simpl.
Qed.

Lemma generate_system_report_structure_witness :
  ∃ report context',
    generate_system_report 3 worked_architecture None
    = Some (Returns (report, context')) ∧
    orchestrator.failed_component <$> scenarios report = ["G"; "D"].
Proof.
  destruct (generate_system_report_structure worked_architecture 3 None)
    as (report & context' & Hrun & _ & _ & Hids & _).
  { vm_compute. lia. }
  by exists report, context'.
Defined.

(** X15. With a context, the pipeline appends its eight events to the log in
    the order of the stages (orchestrator start, failure simulation start and
    done, security analysis start and done, reporting start and done,
    orchestrator done), keeps the run id, stores the two scores of the report
    in the shared state, and returns the same report as without a context. *)
Theorem generate_system_report_logs arch fuel (c : agent_context.AgentContext) :
  enough_fuel arch ≤ fuel →
  ∃ report c',
    generate_system_report fuel arch (Some c)
    = Some (Returns (report, Some c')) ∧
    generate_system_report fuel arch None = Some (Returns (report, None)) ∧
    agent_context.run_id c' = agent_context.run_id c ∧
    agent_context.events c'
    = agent_context.events c
      ++ pipeline_events arch (scenarios report) (security_risks report) ∧
    Dict.get (agent_context.shared_state c') "overall_resilience_score"
    = Some (PFloat (overall_resilience_score report)) ∧
    Dict.get (agent_context.shared_state c') "worst_case_severity"
    = Some (PFloat (worst_case_severity report)).
Proof.
  intros Hfuel.
  destruct (generate_system_report_Returns arch fuel (Some c) Hfuel)
    as (scs & Hscs & Hrun).
  destruct (generate_system_report_Returns arch fuel None Hfuel)
    as (scs' & Hscs' & Hrun').
  assert (scs' = scs) as ->.
  { clear Hrun Hrun'. revert scs' Hscs'.
    induction Hscs as [|id sc ids scs (r & Hr & ->) _ IH];
      intros scs' Hscs'; inversion Hscs' as [|? sc' ? scs'' (r' & Hr' & ->) Hrest];
      subst; [done|].
    rewrite Hr in Hr'. injection Hr' as <-. f_equal. by apply IH. }
  cbv zeta in Hrun, Hrun'. eexists _, _. split; [exact Hrun|].
  split; [exact Hrun'|].
  destruct (ReportingAgent_fields "reporting_agent" arch scs
              (analyze_security arch) None) as (_ & Hsc & Hrisk).
  cbv zeta in Hsc, Hrisk. rewrite Hsc, Hrisk. simpl. split_and!; try done.
  - rewrite !dict_get_set. by rewrite decide_False, decide_True.
  - rewrite !dict_get_set. by rewrite decide_True.
Qed.

Lemma generate_system_report_logs_witness :
  ∃ report c',
    generate_system_report 3 worked_architecture
      (Some (agent_context.mkAgentContext "001" [] []))
    = Some (Returns (report, Some c')) ∧
    agent_context.run_id c' = "001" ∧
    agent_context.step <$> agent_context.events c'
    = ["start"; "start"; "done"; "start"; "done"; "start"; "done"; "done"].
Proof.
  destruct (generate_system_report_logs worked_architecture 3
              (agent_context.mkAgentContext "001" [] []))
    as (report & c' & Hrun & _ & Hid & Hev & _).
  { vm_compute. lia. }
  exists report, c'. split; [exact Hrun|]. split; [exact Hid|].
  rewrite Hev. reflexivity.
Defined.

(** ** The scores of a report of the pipeline *)








(** ** The bookkeeping of the remediation agent *)

(** X17. With a context, [RemediationAgent.run] keeps the run id, stores the
    number of returned suggestions under [remediation_suggestion_count],
    appends to the log a [start] event, at most one event of pass 4 and a
    [done] event that holds the same number, and returns the same suggestions
    as a run without context. *)
Theorem remediation_bookkeeping self_name llm arch report
    (c : agent_context.AgentContext) :
  ∃ suggestions c',
    remediation_agent.RemediationAgent_run self_name llm arch report (Some c)
    = Returns (suggestions, Some c') ∧
    remediation_agent.RemediationAgent_run self_name llm arch report None
    = Returns (suggestions, None) ∧
    agent_context.run_id c' = agent_context.run_id c ∧
    Dict.get (agent_context.shared_state c') "remediation_suggestion_count"
    = Some (len suggestions) ∧
    ∃ middle,
      length middle ≤ 1 ∧
      agent_context.events c'
      = agent_context.events c
        ++ remediation_events self_name arch report middle suggestions.
Proof.
  unfold remediation_agent.RemediationAgent_run, remediation_agent.augment.
  destruct llm as [w|].
  - rewrite !llm_enhance_collaborator.
    destruct (collaborator w) as [[client extra]|e]; simpl;
      eexists _, _; (split; [reflexivity|]); (split; [reflexivity|]);
      (split; [reflexivity|]); simpl;
      (split; [rewrite dict_get_set; by rewrite decide_True|]);
      eexists [_]; (split; [simpl; lia|]);
      unfold remediation_events; by rewrite <- !app_assoc.
  - simpl. eexists _, _. split; [reflexivity|]. split; [reflexivity|].
    split; [reflexivity|]. simpl.
    split; [rewrite dict_get_set; by rewrite decide_True|].
    exists []. split; [simpl; lia|].
    unfold remediation_events. by rewrite <- !app_assoc.
Qed.

(** ** The report as plain data *)

Module report_storage.

Definition scenario_to_dict (s : ScenarioSummary) : pyval :=
  PDict [("scenario_name", PStr (scenario_name s));
         ("failed_component", PStr (orchestrator.failed_component s));
         ("severity", PFloat (severity s));
         ("user_visible_impact", PBool (orchestrator.user_visible_impact s));
         ("impacted_components",
          PList (PStr <$> orchestrator.impacted_components s))].

Definition risk_to_dict (r : security_analysis.SecurityRisk) : pyval :=
  PDict [("component", PStr (security_analysis.component r));
         ("risk_type", PStr (security_analysis.risk_type r));
         ("severity", PStr (security_analysis.severity r));
         ("description", PStr (security_analysis.description r));
         ("suggestion", PStr (security_analysis.suggestion r))].

Definition system_report_to_dict (report : SystemReport) : Dict.t pyval :=
  [("system_name", PStr (orchestrator.system_name report));
   ("overall_resilience_score", PFloat (overall_resilience_score report));
   ("worst_case_severity", PFloat (worst_case_severity report));
   ("scenarios", PList (scenario_to_dict <$> scenarios report));
   ("security_risks", PList (risk_to_dict <$> security_risks report))].

End report_storage.

(** [_report_to_simple_dict] of remediation_agent.py and of
    ai_summary_agent.py, which are the same text: the impacted components
    are copied with [list(...)]. *)
Definition _report_to_simple_dict (report : SystemReport) : Dict.t pyval :=
  [("system_name", PStr (orchestrator.system_name report));
   ("overall_resilience_score", PFloat (overall_resilience_score report));
   ("worst_case_severity", PFloat (worst_case_severity report));
   ("scenarios",
    PList ((λ s,
       PDict [("scenario_name", PStr (scenario_name s));
              ("failed_component", PStr (orchestrator.failed_component s));
              ("severity", PFloat (severity s));
              ("user_visible_impact",
               PBool (orchestrator.user_visible_impact s));
              ("impacted_components",
               PList (PStr <$> orchestrator.impacted_components s))])
      <$> scenarios report));
   ("security_risks",
    PList ((λ r,
       PDict [("component", PStr (security_analysis.component r));
              ("risk_type", PStr (security_analysis.risk_type r));
              ("severity", PStr (security_analysis.severity r));
              ("description", PStr (security_analysis.description r));
              ("suggestion", PStr (security_analysis.suggestion r))])
      <$> security_risks report))].

Lemma PStr_fmap_inj (l1 l2 : list string) :
  PStr <$> l1 = PStr <$> l2 → l1 = l2.
Proof.
  revert l2. induction l1 as [|x l1 IH]; intros [|y l2]; csimpl; try done.
  intros [= -> H]. f_equal. by apply IH.
Qed.

Lemma scenario_to_dict_inj s1 s2 :
  report_storage.scenario_to_dict s1 = report_storage.scenario_to_dict s2 →
  s1 = s2.
Proof.
  destruct s1, s2. unfold report_storage.scenario_to_dict. simpl.
  intros [= -> -> -> -> H]. apply PStr_fmap_inj in H as ->. done.
Qed.

Lemma risk_to_dict_inj r1 r2 :
  report_storage.risk_to_dict r1 = report_storage.risk_to_dict r2 → r1 = r2.
Proof.
  destruct r1, r2. unfold report_storage.risk_to_dict. simpl.
  by intros [= -> -> -> -> ->].
Qed.

Lemma fmap_inj_list {A B} (f : A → B) (l1 l2 : list A) :
  (∀ x y, f x = f y → x = y) → f <$> l1 = f <$> l2 → l1 = l2.
Proof.
  intros Hf. revert l2. induction l1 as [|x l1 IH]; intros [|y l2]; csimpl;
    try done.
  intros [= Hxy H]. f_equal; [by apply Hf|by apply IH].
Qed.

(** X18. The dictionary that [save_report] writes loses nothing: two reports
    with the same dictionary are the same report. It is also the dictionary
    that the remediation agent and the summary agent hand to the model. *)
Theorem system_report_to_dict_inj (r1 r2 : SystemReport) :
  (report_storage.system_report_to_dict r1
   = report_storage.system_report_to_dict r2 → r1 = r2) ∧
  report_storage.system_report_to_dict r1 = _report_to_simple_dict r1.
Proof.
  split; [|reflexivity].
  destruct r1, r2. unfold report_storage.system_report_to_dict. simpl.
  intros [= -> -> -> Hs Hr].
  apply (fmap_inj_list _ _ _ scenario_to_dict_inj) in Hs as ->.
  apply (fmap_inj_list _ _ _ risk_to_dict_inj) in Hr as ->. done.
Qed.

(** ** run_utils.py *)

Module run_utils.

(** [d.split("_", 1)[1]]: what follows the first underscore; [None] stands
    for the [IndexError] of a name without underscore. *)
Fixpoint after_underscore (d : string) : option string :=
  match d with
  | EmptyString => None
  | String c rest =>
      if decide (String c EmptyString = "_") then Some rest
      else after_underscore rest
  end.

(** [f"{n:03d}"] *)
Definition format_03d (n : Z) : string :=
  let pad (width : nat) (digits : string) : string :=
    String.concat EmptyString
      (replicate (width - String.length digits) "0") +:+ digits in
  if decide (n < 0)%Z then "-" +:+ pad 2%nat (pretty (- n)%Z)
  else pad 3%nat (pretty n).

(** The body of [for d in existing], with its [try] and [except]; [int] is
    the conversion of the runtime, [None] when it raises. *)
Definition scan (int : string → option Z) (max_n : Z) (d : string) : Z :=
  match after_underscore d ≫= int with
  | Some n => if decide (max_n < n)%Z then n else max_n
  | None => max_n
  end.

(** [listing] holds the names of [os.listdir(base_dir)], each with the answer
    of [os.path.isdir]. *)
Definition get_next_run_id (int : string → option Z)
    (listing : list (string * bool)) : string :=
  let existing :=
    (filter (λ entry : string * bool,
               String.prefix "run_" entry.1 = true ∧ entry.2 = true)
            listing).*1 in
  let max_n := foldl (scan int) 0%Z existing in
  let next_n := (max_n + 1)%Z in
  format_03d next_n.

End run_utils.

Lemma after_underscore_run (suffix : string) :
  run_utils.after_underscore ("run_" +:+ suffix) = Some suffix.
Proof. reflexivity. Qed.

Lemma prefix_append (s1 s2 : string) :
  String.prefix s1 s2 = true ↔ ∃ t, s2 = s1 +:+ t.
Proof.
  revert s2. induction s1 as [|a s1 IH]; intros s2; simpl.
  - destruct s2; simpl; (split; [intros _; by eexists|done]).
  - destruct s2 as [|b s2]; simpl; [split; [done|by intros [t ?]]|].
    destruct (Ascii.ascii_dec a b) as [->|Hne].
    + rewrite IH. split; intros [t Ht]; exists t; [by rewrite Ht|].
      by injection Ht.
    + split; [done|]. intros [t Ht]. injection Ht as ??. done.
Qed.

Lemma prefix_run (d : string) :
  String.prefix "run_" d = true ↔ ∃ suffix, d = "run_" +:+ suffix.
Proof. apply prefix_append. Qed.

Lemma scan_all_spec (int : string → option Z) (l : list string) (m0 : Z) :
  let m := foldl (run_utils.scan int) m0 l in
  (m0 ≤ m)%Z ∧
  (∀ d n, d ∈ l → run_utils.after_underscore d ≫= int = Some n → (n ≤ m)%Z) ∧
  (m = m0 ∨ ∃ d, d ∈ l ∧ run_utils.after_underscore d ≫= int = Some m).
Proof.
  revert m0. induction l as [|d l IH]; intros m0; simpl.
  - split_and!; [lia| |by left]. by intros ?? ?%elem_of_nil.
  - destruct (IH (run_utils.scan int m0 d)) as (Hle & Hall & Hmax).
    assert (Hstep : (m0 ≤ run_utils.scan int m0 d)%Z ∧
                    (∀ n, run_utils.after_underscore d ≫= int = Some n →
                          (n ≤ run_utils.scan int m0 d)%Z) ∧
                    (run_utils.scan int m0 d = m0 ∨
                     run_utils.after_underscore d ≫= int
                     = Some (run_utils.scan int m0 d))).
    { unfold run_utils.scan.
      destruct (run_utils.after_underscore d ≫= int) as [n|];
        [case_decide|]; split_and!;
        first [lia | done | by left | by right | intros ? [= <-]; lia]. }
    destruct Hstep as (H0 & Hd & Hm). split_and!.
    + lia.
    + intros d' n [->|Hin]%elem_of_cons Hn.
      * specialize (Hd n Hn). lia.
      * by eapply Hall.
    + destruct Hmax as [->|(d' & Hin & Hd')].
      * destruct Hm as [->|Hm]; [by left|]. right. exists d. split; [left|done].
      * right. exists d'. split; [by right|done].
Qed.

(** X19. [get_next_run_id] returns [f"{n:03d}"] for a number [n] that is at
    least 1 and greater than the number of every existing directory
    [run_<suffix>] whose suffix [int] accepts; [n] is 1 when there is none (or
    none with a positive number), and otherwise one more than the number of
    such a directory. Plain files and names that [int] refuses are ignored. *)
Theorem get_next_run_id_spec (int : string → option Z)
    (listing : list (string * bool)) :
  ∃ n : Z,
    run_utils.get_next_run_id int listing = run_utils.format_03d n ∧
    (1 ≤ n)%Z ∧
    (∀ suffix m, ("run_" +:+ suffix, true) ∈ listing →
                 int suffix = Some m → (m < n)%Z) ∧
    (n = 1%Z ∨ ∃ suffix, ("run_" +:+ suffix, true) ∈ listing ∧
                         int suffix = Some (n - 1)%Z).
Proof.
  unfold run_utils.get_next_run_id.
  set (existing := (filter _ listing).*1).
  destruct (scan_all_spec int existing 0) as (Hle & Hall & Hmax).
  exists (foldl (run_utils.scan int) 0%Z existing + 1)%Z.
  split; [done|]. split; [lia|]. split.
  - intros suffix m Hin Hm.
    assert (m ≤ foldl (run_utils.scan int) 0%Z existing)%Z; [|lia].
    apply (Hall ("run_" +:+ suffix)).
    + subst existing. apply list_elem_of_fmap. eexists (_, _).
      split; [reflexivity|]. apply list_elem_of_filter. split; [|exact Hin].
      split; [|done]. apply prefix_run. by exists suffix.
    + by rewrite after_underscore_run.
  - destruct Hmax as [->|(d & Hin & Hd)]; [by left|]. right.
    subst existing. apply list_elem_of_fmap in Hin as ([d' b] & -> & Hin).
    apply list_elem_of_filter in Hin as [[Hp Hb] Hin]. simpl in *. subst b.
    apply prefix_run in Hp as [suffix ->]. exists suffix. split; [done|].
    rewrite after_underscore_run in Hd. simpl in Hd. rewrite Hd. f_equal. lia.
Qed.

(** A conversion that accepts the numbers 7 and 12 as they are printed. *)
Definition int_of_examples (s : string) : option Z :=
  if decide (s = "007") then Some 7%Z
  else if decide (s = "012") then Some 12%Z
  else None.

Lemma get_next_run_id_spec_witness :
  (∃ n : Z,
     run_utils.get_next_run_id int_of_examples
       [("run_007", true); ("notes.txt", false); ("run_012", true);
        ("run_tmp", true); ("run_999", false)]
     = run_utils.format_03d n ∧ (12 < n)%Z)
  ∧ run_utils.get_next_run_id int_of_examples
      [("run_007", true); ("notes.txt", false); ("run_012", true);
       ("run_tmp", true); ("run_999", false)]
    = "013"
  ∧ run_utils.get_next_run_id int_of_examples [] = "001".
Proof.
  split; [|split; by vm_compute].
  destruct (get_next_run_id_spec int_of_examples
              [("run_007", true); ("notes.txt", false); ("run_012", true);
               ("run_tmp", true); ("run_999", false)])
    as (n & Heq & _ & Hall & _).
  exists n. split; [exact Heq|].
  apply (Hall "012" 12%Z); [|reflexivity]. right. right. left.
Defined.

(** ** ai_summary_agent.py *)

Module ai_summary_agent.

(** The string methods of the runtime that [_clean_text] calls. *)
Record StrMethods : Type := mkStrMethods {
  (** [text.replace(old, new)] *)
  str_replace : string → string → string → string;
  (** [text.splitlines()] *)
  str_splitlines : string → list string;
  (** [line.strip()] *)
  str_strip : string → string
}.

Definition newline : string := String (Ascii.ascii_of_nat 10) EmptyString.

(** The bullet U+2022, as UTF-8. *)
Definition bullet : string :=
  String (Ascii.ascii_of_nat 226)
    (String (Ascii.ascii_of_nat 128)
       (String (Ascii.ascii_of_nat 162) EmptyString)).

Definition replacements : list (string * string) :=
  [("**", EmptyString); ("##", EmptyString); ("#", EmptyString);
   ("*", EmptyString); (bullet, EmptyString); (bullet, EmptyString)].

Definition _clean_text (py : StrMethods) (text : string) : string :=
  let text :=
    foldl (λ text (r : string * string), str_replace py text r.1 r.2)
          text replacements in
  let lines := str_strip py <$> str_splitlines py text in
  let lines := filter (λ line, line ≠ EmptyString) lines in
  String.concat newline lines.

Definition fallback_summary : string :=
  "AI Insight Summary" +:+ newline
  +:+ "The system was analyzed successfully. Review failure scenarios and remediation "
  +:+ "sections to improve resilience and security posture.".

(** The [try] block of [generate_ai_summary]; the prompt, which holds the
    report, reaches [generate_content] only. *)
Definition ask (py : StrMethods) (w : llm_client.Gemini)
  : outcome (string * bool) :=
  client ← llm_client.__init__ w ;
  raw_text ← llm_client.generate_content (llm_client.world client) ;
  if decide (raw_text = EmptyString) then Returns (fallback_summary, false)
  else
    let clean := _clean_text py raw_text in
    Returns ("AI Insight Summary" +:+ newline
             +:+ "Powered by Gemini (" +:+ llm_client.model_name client
             +:+ ")" +:+ newline +:+ newline +:+ clean, true).

(** [llm] is [None] when [LLMClient] is [None]. *)
Definition generate_ai_summary (py : StrMethods)
    (llm : option llm_client.Gemini) (report : SystemReport)
  : outcome (string * bool) :=
  match llm with
  | None => Returns (fallback_summary, false)
  | Some w =>
      match ask py w with
      | Returns r => Returns r
      | Raises e => Returns (fallback_summary, false)
      end
  end.

End ai_summary_agent.

(** X20. [generate_ai_summary] raises nothing. It reports the use of the
    model exactly when the client could be built and the model answered with
    a text that is not empty; the summary is then the cleaned answer under a
    heading that names the model. In every other case (no client class, no
    API key, an exception of the library, an empty answer) the summary is
    the fixed fallback text. *)
Theorem generate_ai_summary_fallback py llm report :
  ∃ text used,
    ai_summary_agent.generate_ai_summary py llm report
    = Returns (text, used) ∧
    (used = true ↔
     ∃ w client raw,
       llm = Some w ∧ llm_client.__init__ w = Returns client ∧
       llm_client.generate_content w = Returns raw ∧ raw ≠ EmptyString) ∧
    (used = false → text = ai_summary_agent.fallback_summary) ∧
    (∀ w client raw,
       llm = Some w → llm_client.__init__ w = Returns client →
       llm_client.generate_content w = Returns raw → raw ≠ EmptyString →
       text = "AI Insight Summary" +:+ ai_summary_agent.newline
              +:+ "Powered by Gemini (" +:+ llm_client.model_name client
              +:+ ")" +:+ ai_summary_agent.newline
              +:+ ai_summary_agent.newline
              +:+ ai_summary_agent._clean_text py raw).
Proof.
  unfold ai_summary_agent.generate_ai_summary.
  destruct llm as [w|].
  - unfold ai_summary_agent.ask.
    destruct (llm_client.__init__ w) as [client|e] eqn:Hinit; simpl.
    + rewrite (init_world w client Hinit).
      destruct (llm_client.generate_content w) as [raw|e] eqn:Hgen; simpl.
      * destruct (decide (raw = EmptyString)) as [->|Hne]; simpl;
          eexists _, _; (split; [reflexivity|]); split_and!; try done.
        -- split; [done|]. intros (? & ? & ? & [= <-] & _ & Hr & Hn).
           rewrite Hgen in Hr. by injection Hr as <-.
        -- intros ??? [= <-] _ Hr Hn. rewrite Hgen in Hr. by injection Hr as <-.
        -- split; [|done]. intros _. by exists w, client, raw.
        -- intros ??? [= <-] Hi Hr _. rewrite Hinit in Hi. rewrite Hgen in Hr.
           by injection Hi as <-; injection Hr as <-.
      * eexists _, _. split; [reflexivity|]. split_and!; try done.
        -- split; [done|]. intros (? & ? & ? & [= <-] & _ & Hr & _).
           by rewrite Hgen in Hr.
        -- intros ??? [= <-] _ Hr. by rewrite Hgen in Hr.
    + eexists _, _. split; [reflexivity|]. split_and!; try done.
      * split; [done|]. intros (? & ? & ? & [= <-] & Hi & _).
        by rewrite Hinit in Hi.
      * intros ??? [= <-] Hi. by rewrite Hinit in Hi.
  - eexists _, _. split; [reflexivity|]. split_and!; try done.
    split; [done|]. by intros (? & ? & ? & ? & _).
Qed.

(** String methods that leave the text as it is, for an example. *)
Definition plain_methods : ai_summary_agent.StrMethods :=
  ai_summary_agent.mkStrMethods (λ text _ _, text) (λ text, [text]) id.

Lemma generate_ai_summary_fallback_witness :
  ai_summary_agent.generate_ai_summary plain_methods
    (Some gemini_without_key) quiet_report
  = Returns (ai_summary_agent.fallback_summary, false).
Proof.
  destruct (generate_ai_summary_fallback plain_methods
              (Some gemini_without_key) quiet_report)
    as (text & used & -> & Hused & Hfall & _).
  destruct used.
  - destruct (proj1 Hused eq_refl) as (w & client & raw & [= <-] & Hinit & _).
    done.
  - by rewrite Hfall.
Defined.
